(** * ATen tensor accessors: a shallow embedding of [ATen/core/TensorAccessor.h]

    The header defines two families of non-owning views over a strided
    buffer: [TensorAccessor], which borrows its size and stride arrays, and
    [PackedTensorAccessor], which embeds copies of them.  Both are indexed
    with [operator[]], one dimension at a time.

    The embedding keeps the shape of the C++: pointers are a region plus an
    element offset, the memory is threaded through a small state-and-error
    monad, and every member function is one definition named after it
    ([operator[]] is spelled [subscript]). *)

From stdpp Require Import base numbers option list vector gmap.

Local Open Scope Z_scope.

(** ** [int64_t] *)

Definition INT64_MIN : Z := - 2 ^ 63.
Definition INT64_MAX : Z := 2 ^ 63 - 1.

Definition in_int64 (z : Z) : bool := (INT64_MIN <=? z) && (z <=? INT64_MAX).

(** [a * b] on [int64_t].  Signed overflow has no defined result in C++, so
    the product is only produced when it is representable. *)
Definition int64_mul (a b : Z) : option Z :=
  if in_int64 (a * b) then Some (a * b) else None.

(** ** Pointers

    A [const int64_t*] designates an array and an element offset into it.
    The array is either one owned by the tensor the accessor was made from,
    or one of the two arrays embedded in a packed accessor object. *)

Inductive int64_array : Type :=
  | Owned (b : nat)
  | EmbeddedSizes (obj : nat)
  | EmbeddedStrides (obj : nat).

Record int64_ptr : Type := IPtr { iarr : int64_array; iofs : Z }.

(** A [T*] (the [PtrType] of either pointer trait: [__restrict__] does not
    change addressing) designates a data buffer and an element offset. *)
Record elem_ptr : Type := EPtr { eblk : nat; eofs : Z }.

Global Instance int64_array_eq_dec : EqDecision int64_array.
Proof. solve_decision. Defined.
Global Instance int64_ptr_eq_dec : EqDecision int64_ptr.
Proof. solve_decision. Defined.
Global Instance elem_ptr_eq_dec : EqDecision elem_ptr.
Proof. solve_decision. Defined.

(** Pointer arithmetic [p + k] only moves the offset; whether the result
    designates an element is decided when it is dereferenced. *)
Definition iptr_add (p : int64_ptr) (k : Z) : int64_ptr :=
  IPtr (iarr p) (iofs p + k).
Definition eptr_add (p : elem_ptr) (k : Z) : elem_ptr :=
  EPtr (eblk p) (eofs p + k).

Infix "+i" := iptr_add (at level 50, left associativity).
Infix "+e" := eptr_add (at level 50, left associativity).

(** [a[k]] on an array held as a list, for a signed index. *)
Definition nthZ {A : Type} (l : list A) (k : Z) : option A :=
  if 0 <=? k then l !! Z.to_nat k else None.

(** ** Object representations

    [TensorAccessorBase<T,N>] stores three pointers.  [N] is a template
    argument, hence a parameter of the type; an accessor that can be
    subscripted has [N >= 1], written [S N] below, and the primary template
    applies from [S (S N)] on. *)
Record TensorAccessorRep (N : nat) : Type := MkTensorAccessor {
  data_ : elem_ptr;
  sizes_ : int64_ptr;
  strides_ : int64_ptr
}.
Arguments MkTensorAccessor {N} _ _ _.
Arguments data_ {N} _.
Arguments sizes_ {N} _.
Arguments strides_ {N} _.

(** [PackedTensorAccessorBase<T,N>] stores the data pointer and two arrays
    [int64_t sizes_[N]], [int64_t strides_[N]] inside the object. *)
Record PackedTensorAccessorRep (N : nat) : Type := MkPackedTensorAccessor {
  pdata_ : elem_ptr;
  psizes_ : vec Z N;
  pstrides_ : vec Z N
}.
Arguments MkPackedTensorAccessor {N} _ _ _.
Arguments pdata_ {N} _.
Arguments psizes_ {N} _.
Arguments pstrides_ {N} _.

(** A packed accessor object of any dimensionality, as the memory holds it. *)
Inductive packed_object : Type :=
  | PackedObject (N : nat) (P : PackedTensorAccessorRep N).

(** ** Memory

    [arrays] are the [int64_t] arrays owned outside the accessors, [packed]
    the packed accessor objects by address (indexing a packed accessor hands
    out pointers into the object itself, so its address matters), [buffers]
    the element buffers. *)
Record mem (T : Type) : Type := MkMem {
  arrays : gmap nat (list Z);
  packed : gmap nat packed_object;
  buffers : gmap nat (list T)
}.
Arguments MkMem {T} _ _ _.
Arguments arrays {T} _.
Arguments packed {T} _.
Arguments buffers {T} _.

Section Memory.
Context {T : Type}.

(** The array a [const int64_t*] points into. *)
Definition int64_array_at (m : mem T) (a : int64_array) : option (list Z) :=
  match a with
  | Owned b => arrays m !! b
  | EmbeddedSizes o =>
      match packed m !! o with
      | Some (PackedObject _ P) => Some (vec_to_list (psizes_ P))
      | None => None
      end
  | EmbeddedStrides o =>
      match packed m !! o with
      | Some (PackedObject _ P) => Some (vec_to_list (pstrides_ P))
      | None => None
      end
  end.

Definition read_int64 (m : mem T) (p : int64_ptr) : option Z :=
  match int64_array_at m (iarr p) with
  | Some l => nthZ l (iofs p)
  | None => None
  end.

Definition read_elem (m : mem T) (r : elem_ptr) : option T :=
  match buffers m !! eblk r with
  | Some l => nthZ l (eofs r)
  | None => None
  end.

Definition write_elem (m : mem T) (r : elem_ptr) (v : T) : option (mem T) :=
  match buffers m !! eblk r with
  | Some l =>
      if (0 <=? eofs r) && (eofs r <? Z.of_nat (length l)) then
        Some (MkMem (arrays m) (packed m)
                    (<[eblk r := <[Z.to_nat (eofs r) := v]> l]> (buffers m)))
      else None
  | None => None
  end.

(** The object of static type [PackedTensorAccessor<T,N>] at an address. *)
Definition packed_at (N : nat) (m : mem T) (this : nat)
  : option (PackedTensorAccessorRep N) :=
  match packed m !! this with
  | Some (PackedObject N' P) =>
      match decide (N' = N) with
      | left e => Some (eq_rect N' PackedTensorAccessorRep P N e)
      | right _ => None
      end
  | None => None
  end.

(** Storage for a packed accessor: a declaration, a kernel argument or a
    copy puts the object representation at an address. *)
Definition place {N : nat} (this : nat) (P : PackedTensorAccessorRep N)
    (m : mem T) : mem T :=
  MkMem (arrays m) (<[this := PackedObject N P]> (packed m)) (buffers m).
End Memory.

(** ** The monad: a computation reads and writes the memory and may be
    undefined. *)
Definition M (T A : Type) : Type := mem T -> option (A * mem T).

Section Monad.
Context {T : Type}.

Definition ret {A} (a : A) : M T A := fun m => Some (a, m).
Definition bind {A B} (c : M T A) (k : A -> M T B) : M T B :=
  fun m => match c m with
           | Some (a, m') => k a m'
           | None => None
           end.
Definition lift {A} (o : option A) : M T A :=
  fun m => match o with Some a => Some (a, m) | None => None end.

(** [*p] for [p : const int64_t*]. *)
Definition load_int64 (p : int64_ptr) : M T Z :=
  fun m => match read_int64 m p with Some z => Some (z, m) | None => None end.
(** [this] for a member function of [PackedTensorAccessor<T,N>]. *)
Definition load_this (N : nat) (this : nat) : M T (PackedTensorAccessorRep N) :=
  fun m => match packed_at N m this with Some P => Some (P, m) | None => None end.
(** Reading and assigning through a [T&]. *)
Definition load_elem (r : elem_ptr) : M T T :=
  fun m => match read_elem m r with Some v => Some (v, m) | None => None end.
Definition store_elem (r : elem_ptr) (v : T) : M T unit :=
  fun m => match write_elem m r v with Some m' => Some (tt, m') | None => None end.
(** Initialising the packed accessor object at an address. *)
Definition store_this {N : nat} (this : nat) (P : PackedTensorAccessorRep N)
  : M T unit := fun m => Some (tt, place this P m).
End Monad.

Notation "'do' x <- c ;; k" := (bind c (fun x => k))
  (at level 10, x name, c at level 99, k at level 200,
   format "'[v' 'do'  x  <-  c  ;;  '/' k ']'").

(** ** [IntList]

    Modelled from the spec: [IntList] is declared outside this header; the
    results of [sizes()] and [strides()] are described as read-only views,
    of length [N], of the size and stride sequences.  A view is the pointer
    and the length it was made from, and its elements are read through the
    pointer. *)
Record IntList : Type := MkIntList { il_data : int64_ptr; il_length : nat }.

(** ** [TensorAccessorBase<T,N>] *)
Module TensorAccessorBase.
Abbreviation t := TensorAccessorRep.

Section Members.
Context {T : Type} {N : nat}.

(** [int64_t stride(int64_t i) const { return strides_[i]; }] *)
Definition stride (this : t N) (i : Z) : M T Z :=
  load_int64 (strides_ this +i i).
(** [int64_t size(int64_t i) const { return sizes_[i]; }] *)
Definition size (this : t N) (i : Z) : M T Z :=
  load_int64 (sizes_ this +i i).
(** [T *data() { return data_; }] *)
Definition data (this : t N) : M T elem_ptr := ret (data_ this).
(** [IntList sizes() const { return IntList(sizes_,N); }] (host only) *)
Definition sizes (this : t N) : M T IntList := ret (MkIntList (sizes_ this) N).
(** [IntList strides() const { return IntList(strides_,N); }] (host only) *)
Definition strides (this : t N) : M T IntList := ret (MkIntList (strides_ this) N).
End Members.
End TensorAccessorBase.

(** ** [TensorAccessor<T,N>] *)
Module TensorAccessor.
Abbreviation t := TensorAccessorRep.

Section Members.
Context {T : Type}.

(** The constructor forwards its three arguments to the base. *)
Definition ctor (N : nat) (data_ : elem_ptr) (sizes_ strides_ : int64_ptr)
  : t N := MkTensorAccessor data_ sizes_ strides_.

(** Primary template, [operator[]] (both overloads have this body):
    [return TensorAccessor<T,N-1>(this->data_ + this->strides_[0]*i,
                                  this->sizes_+1, this->strides_+1);] *)
Definition subscript {N : nat} (this : t (S (S N))) (i : Z) : M T (t (S N)) :=
  do s <- load_int64 (strides_ this +i 0) ;;
  do k <- lift (int64_mul s i) ;;
  ret (ctor (S N) (data_ this +e k) (sizes_ this +i 1) (strides_ this +i 1)).

(** Specialisation for [N = 1], [T & operator[]]:
    [return this->data_[this->strides_[0]*i];]
    The result is the lvalue, that is the address of the element. *)
Definition subscript1 (this : t 1) (i : Z) : M T elem_ptr :=
  do s <- load_int64 (strides_ this +i 0) ;;
  do k <- lift (int64_mul s i) ;;
  ret (data_ this +e k).
End Members.
End TensorAccessor.

(** ** [std::copy] out of an [int64_t] array

    [std::copy(first, first + N, dest)] reads the [N] elements
    [first[0]], ..., [first[N-1]] in order; the destination is the embedded
    array of the object under construction, so the copy is returned as the
    array's value. *)
Fixpoint read_array {T : Type} (N : nat) (first : int64_ptr) (m : mem T)
  : option (vec Z N) :=
  match N with
  | O => Some [#]
  | S n =>
      match read_int64 m first with
      | Some x =>
          match read_array n (first +i 1) m with
          | Some xs => Some (x ::: xs)
          | None => None
          end
      | None => None
      end
  end.

Definition std_copy {T : Type} (N : nat) (first : int64_ptr) : M T (vec Z N) :=
  fun m => match read_array N first m with Some v => Some (v, m) | None => None end.

(** ** [PackedTensorAccessorBase<T,N>] *)
Module PackedTensorAccessorBase.
Abbreviation t := PackedTensorAccessorRep.

Section Members.
Context {T : Type}.

(** The member arrays decay to pointers to their first element. *)
Definition sizes_ptr (this : nat) : int64_ptr := IPtr (EmbeddedSizes this) 0.
Definition strides_ptr (this : nat) : int64_ptr := IPtr (EmbeddedStrides this) 0.

(** Constructor (host only): [data_(data_)], then
    [std::copy(sizes_, sizes_ + N, std::begin(this->sizes_));]
    [std::copy(strides_, strides_ + N, std::begin(this->strides_));] *)
Definition ctor (N : nat) (data_ : elem_ptr) (sizes_ strides_ : int64_ptr)
  : M T (t N) :=
  do sz <- std_copy N sizes_ ;;
  do st <- std_copy N strides_ ;;
  ret (MkPackedTensorAccessor data_ sz st).

(** [int64_t stride(int64_t i) const { return strides_[i]; }] *)
Definition stride (N : nat) (this : nat) (i : Z) : M T Z :=
  do _P <- load_this N this ;;
  load_int64 (strides_ptr this +i i).
(** [int64_t size(int64_t i) const { return sizes_[i]; }] *)
Definition size (N : nat) (this : nat) (i : Z) : M T Z :=
  do _P <- load_this N this ;;
  load_int64 (sizes_ptr this +i i).

(** The implicit copy constructor copies the three members. *)
Definition copy (N : nat) (src dst : nat) : M T unit :=
  do P <- load_this N src ;;
  store_this dst (MkPackedTensorAccessor (pdata_ P) (psizes_ P) (pstrides_ P)).
End Members.
End PackedTensorAccessorBase.

(** ** [PackedTensorAccessor<T,N>] *)
Module PackedTensorAccessor.
Abbreviation t := PackedTensorAccessorRep.
Import PackedTensorAccessorBase.

Section Members.
Context {T : Type}.

(** The constructor forwards to the base. *)
Definition ctor (N : nat) (data_ : elem_ptr) (sizes_ strides_ : int64_ptr)
  : M T (t N) := PackedTensorAccessorBase.ctor N data_ sizes_ strides_.

(** Primary template, [operator[]] (both overloads have this body):
    [int64_t* new_sizes = this->sizes_+1;]
    [int64_t* new_strides = this->strides_+1;]
    [return TensorAccessor<T,N-1>(this->data_ + this->strides_[0]*i,
                                  new_sizes, new_strides);] *)
Definition subscript {N : nat} (this : nat) (i : Z)
  : M T (TensorAccessor.t (S N)) :=
  do P <- load_this (S (S N)) this ;;
  let new_sizes := sizes_ptr this +i 1 in
  let new_strides := strides_ptr this +i 1 in
  do s <- load_int64 (strides_ptr this +i 0) ;;
  do k <- lift (int64_mul s i) ;;
  ret (TensorAccessor.ctor (S N) (pdata_ P +e k) new_sizes new_strides).

(** Specialisation for [N = 1] (both overloads):
    [return this->data_[this->strides_[0]*i];] *)
Definition subscript1 (this : nat) (i : Z) : M T elem_ptr :=
  do P <- load_this 1 this ;;
  do s <- load_int64 (strides_ptr this +i 0) ;;
  do k <- lift (int64_mul s i) ;;
  ret (pdata_ P +e k).
End Members.
End PackedTensorAccessor.

(** ** Subscript expressions

    What [A[i]] denotes depends on which template the compiler selects for
    the static type of [A]: the specialisation when [N = 1], the primary
    template otherwise. *)
Inductive subscripted : Type :=
  | Element (r : elem_ptr)
  | SubAccessor (N : nat) (A : TensorAccessorRep N).

Section Expressions.
Context {T : Type}.

(** [A[i]] for [A : TensorAccessor<T,N+1>]. *)
Definition accessor_subscript (N : nat) : TensorAccessorRep (S N) -> Z -> M T subscripted :=
  match N with
  | O => fun A i =>
      do r <- TensorAccessor.subscript1 A i ;; ret (Element r)
  | S n => fun A i =>
      do A' <- TensorAccessor.subscript A i ;; ret (SubAccessor (S n) A')
  end.

(** [P[i]] for [P : PackedTensorAccessor<T,N+1>] at address [this]. *)
Definition packed_subscript (N : nat) (this : nat) (i : Z) : M T subscripted :=
  match N with
  | O => do r <- PackedTensorAccessor.subscript1 this i ;; ret (Element r)
  | S n => do A' <- PackedTensorAccessor.subscript this i ;; ret (SubAccessor (S n) A')
  end.

(** [A[i0][i1]...[iN]] for [A : TensorAccessor<T,N+1>]: one subscript per
    dimension, the last one yielding the element.  Any other number of
    subscripts is not an expression of element type. *)
Fixpoint accessor_element (N : nat) : TensorAccessorRep (S N) -> list Z -> M T elem_ptr :=
  match N with
  | O => fun A idx =>
      match idx with
      | [i] => TensorAccessor.subscript1 A i
      | _ => lift None
      end
  | S n => fun A idx =>
      match idx with
      | i :: rest =>
          do A' <- TensorAccessor.subscript A i ;; accessor_element n A' rest
      | [] => lift None
      end
  end.

(** [P[i0][i1]...[iN]] for [P : PackedTensorAccessor<T,N+1>] at [this]. *)
Definition packed_element (N : nat) (this : nat) (idx : list Z) : M T elem_ptr :=
  match N with
  | O =>
      match idx with
      | [i] => PackedTensorAccessor.subscript1 this i
      | _ => lift None
      end
  | S n =>
      match idx with
      | i :: rest =>
          do A' <- PackedTensorAccessor.subscript this i ;; accessor_element n A' rest
      | [] => lift None
      end
  end.
End Expressions.

(** The offset [s0*i0 + s1*i1 + ...] of the address formula. *)
Fixpoint dot (s idx : list Z) : Z :=
  match s, idx with
  | x :: s', i :: idx' => x * i + dot s' idx'
  | _, _ => 0
  end.

(** Every product [s_k * i_k] is representable. *)
Fixpoint products_in_int64 (s idx : list Z) : bool :=
  match s, idx with
  | x :: s', i :: idx' => in_int64 (x * i) && products_in_int64 s' idx'
  | _, _ => true
  end.

(** ** The scenario of the specification: a 2 x 3 row-major buffer *)
Module Scenario.
Definition data : elem_ptr := EPtr 0 0.
Definition sizes : int64_ptr := IPtr (Owned 1) 0.
Definition strides : int64_ptr := IPtr (Owned 2) 0.

Definition m0 : mem Z :=
  MkMem (<[1%nat := [2; 3]]> (<[2%nat := [3; 1]]> ∅)) ∅
        (<[0%nat := [10; 11; 12; 13; 14; 15]]> ∅).

Definition A : TensorAccessor.t 2 := TensorAccessor.ctor 2 data sizes strides.

(** The second row as a 1-dimensional accessor. *)
Definition row1 : TensorAccessor.t 1 :=
  TensorAccessor.ctor 1 (data +e 3) (sizes +i 1) (strides +i 1).

(** The same view with its sizes pointer aimed at another array, and a
    memory whose size arrays hold other values. *)
Definition B : TensorAccessor.t 2 :=
  TensorAccessor.ctor 2 data (IPtr (Owned 3) 0) strides.
Definition m0' : mem Z :=
  MkMem (<[1%nat := [20; 30]]> (<[2%nat := [3; 1]]> (<[3%nat := [7; 9]]> ∅))) ∅
        (<[0%nat := [10; 11; 12; 13; 14; 15]]> ∅).

(** Packed accessors over the buffer and over its second row, stored at
    addresses 7 and 8; a packed accessor with the strides of [P2] and
    other sizes. *)
Definition P2 : PackedTensorAccessor.t 2 :=
  MkPackedTensorAccessor data [# 2; 3] [# 3; 1].
Definition P1 : PackedTensorAccessor.t 1 :=
  MkPackedTensorAccessor (data +e 3) [# 3] [# 1].
Definition Q2 : PackedTensorAccessor.t 2 :=
  MkPackedTensorAccessor data [# 20; 30] [# 3; 1].
Definition mp : mem Z := place 8%nat P1 (place 7%nat P2 m0).
Definition mp' : mem Z := place 4%nat Q2 m0'.


(** A broadcast view: one row seen twice, through strides [0,1], as a
    reference accessor and as a packed accessor stored at address 9. *)
Definition Bc : TensorAccessor.t 2 :=
  TensorAccessor.ctor 2 data sizes (IPtr (Owned 4) 0).
Definition Pb : PackedTensorAccessor.t 2 :=
  MkPackedTensorAccessor data [# 2; 3] [# 0; 1].
Definition mb : mem Z :=
  place 9%nat Pb
    (MkMem (<[1%nat := [2; 3]]> (<[4%nat := [0; 1]]> ∅)) ∅
           (<[0%nat := [10; 11; 12]]> ∅)).
End Scenario.

(** The elements seen through an [IntList]. *)
Definition IntList_elements {T : Type} (l : IntList) (m : mem T) : option (list Z) :=
  match read_array (il_length l) (il_data l) m with
  | Some v => Some (vec_to_list v)
  | None => None
  end.

(** ** Shapes

    The largest offset [sum s_k * (n_k - 1)] an index within the sizes can
    reach, the indices within the sizes, and the strides under which no two
    of them meet. *)
Fixpoint max_offset (sizes strides : list Z) : Z :=
  match sizes, strides with
  | n :: ns, s :: ss => s * (n - 1) + max_offset ns ss
  | _, _ => 0
  end.

Fixpoint indices_in_range (sizes idx : list Z) : bool :=
  match sizes, idx with
  | n :: ns, i :: idx' => (0 <=? i) && (i <? n) && indices_in_range ns idx'
  | [], [] => true
  | _, _ => false
  end.

Definition strides_nonneg (strides : list Z) : bool :=
  forallb (fun s => 0 <=? s) strides.


(** * Properties *)

(** ** Pointer arithmetic and the monad *)

Lemma iptr_add_0 p : p +i 0 = p.
Proof. destruct p as [a o]. unfold iptr_add. simpl. f_equal. lia. Qed.

Lemma iptr_add_assoc p j k : p +i j +i k = p +i (j + k).
Proof. destruct p as [a o]. unfold iptr_add. simpl. f_equal. lia. Qed.

Lemma eptr_add_0 p : p +e 0 = p.
Proof. destruct p as [b o]. unfold eptr_add. simpl. f_equal. lia. Qed.

Lemma eptr_add_assoc p j k : p +e j +e k = p +e (j + k).
Proof. destruct p as [b o]. unfold eptr_add. simpl. f_equal. lia. Qed.

Lemma int64_mul_Some a b k :
  int64_mul a b = Some k <-> in_int64 (a * b) = true /\ k = a * b.
Proof.
  unfold int64_mul. destruct (in_int64 (a * b)); split.
  - intros [= <-]. auto.
  - intros [_ ->]. reflexivity.
  - discriminate.
  - intros [[=] _].
Qed.

Lemma nthZ_Some {A} (l : list A) k x :
  nthZ l k = Some x <-> 0 <= k /\ l !! Z.to_nat k = Some x.
Proof.
  unfold nthZ. destruct (Z.leb_spec 0 k); split.
  - auto.
  - intros [_ H']. exact H'.
  - discriminate.
  - intros [? _]. lia.
Qed.

Lemma nthZ_of_nat {A} (l : list A) (k : nat) : nthZ l (Z.of_nat k) = l !! k.
Proof.
  unfold nthZ. destruct (Z.leb_spec 0 (Z.of_nat k)); [|lia].
  by rewrite Nat2Z.id.
Qed.

Lemma vec_S_view {A n} (v : vec A (S n)) : exists x xs, v = x ::: xs.
Proof. revert v. apply vec_S_inv. eauto. Qed.

Lemma vec_0_view {A} (v : vec A 0) : v = [#].
Proof. revert v. by apply vec_0_inv. Qed.

Section MonadFacts.
Context {T : Type}.

Lemma bind_Some {A B} (c : M T A) (k : A -> M T B) m b m2 :
  bind c k m = Some (b, m2) <->
  exists a m1, c m = Some (a, m1) /\ k a m1 = Some (b, m2).
Proof.
  unfold bind. split.
  - destruct (c m) as [[a m1]|]; [|discriminate]. eauto.
  - intros (a & m1 & -> & H). exact H.
Qed.

Lemma load_int64_Some (p : int64_ptr) (m : mem T) z m' :
  load_int64 p m = Some (z, m') <-> read_int64 m p = Some z /\ m' = m.
Proof.
  unfold load_int64. destruct (read_int64 m p); split.
  - intros [= <- <-]. auto.
  - intros [[= <-] ->]. reflexivity.
  - discriminate.
  - intros [[=] _].
Qed.

Lemma lift_Some {A} (o : option A) (m : mem T) a m' :
  lift o m = Some (a, m') <-> o = Some a /\ m' = m.
Proof.
  unfold lift. destruct o; split.
  - intros [= <- <-]. auto.
  - intros [[= <-] ->]. reflexivity.
  - discriminate.
  - intros [[=] _].
Qed.

Lemma load_this_Some N this (m : mem T) P m' :
  load_this N this m = Some (P, m') <-> packed_at N m this = Some P /\ m' = m.
Proof.
  unfold load_this. destruct (packed_at N m this); split.
  - intros [= <- <-]. auto.
  - intros [[= <-] ->]. reflexivity.
  - discriminate.
  - intros [[=] _].
Qed.

Lemma packed_at_Some N (m : mem T) this P :
  packed_at N m this = Some P <-> packed m !! this = Some (PackedObject N P).
Proof.
  unfold packed_at. split.
  - destruct (packed m !! this) as [[N' P']|]; [|discriminate].
    destruct (decide (N' = N)) as [e|]; [|discriminate].
    destruct e. simpl. by intros [= ->].
  - intros ->. destruct (decide (N = N)) as [e|]; [|done].
    by rewrite (proof_irrel e eq_refl).
Qed.

Lemma packed_at_place_eq N this (P : PackedTensorAccessorRep N) (m : mem T) :
  packed_at N (place this P m) this = Some P.
Proof. apply packed_at_Some. unfold place. simpl. apply lookup_insert_eq. Qed.
End MonadFacts.

(** ** What each member function computes *)
Section Members.
Context {T : Type}.
Implicit Types (m : mem T) (i k : Z).

Lemma TensorAccessor_subscript_inv N (A : TensorAccessor.t (S (S N))) i m A' m' :
  TensorAccessor.subscript A i m = Some (A', m') <->
  exists s, read_int64 m (strides_ A +i 0) = Some s /\ in_int64 (s * i) = true /\
    m' = m /\
    A' = MkTensorAccessor (data_ A +e s * i) (sizes_ A +i 1) (strides_ A +i 1).
Proof.
  unfold TensorAccessor.subscript. rewrite bind_Some. split.
  - intros (s & m1 & [Hs ->]%load_int64_Some & H).
    apply bind_Some in H as (k & m2 & [[Hk ->]%int64_mul_Some ->]%lift_Some & H).
    injection H as <- <-. eauto 6.
  - intros (s & Hs & Hk & -> & ->). exists s, m. split.
    + by apply load_int64_Some.
    + apply bind_Some. exists (s * i), m. split; [|reflexivity].
      apply lift_Some. split; [|reflexivity]. by apply int64_mul_Some.
Qed.

Lemma TensorAccessor_subscript1_inv (A : TensorAccessor.t 1) i m r m' :
  TensorAccessor.subscript1 A i m = Some (r, m') <->
  exists s, read_int64 m (strides_ A +i 0) = Some s /\ in_int64 (s * i) = true /\
    m' = m /\ r = data_ A +e s * i.
Proof.
  unfold TensorAccessor.subscript1. rewrite bind_Some. split.
  - intros (s & m1 & [Hs ->]%load_int64_Some & H).
    apply bind_Some in H as (k & m2 & [[Hk ->]%int64_mul_Some ->]%lift_Some & H).
    injection H as <- <-. eauto 6.
  - intros (s & Hs & Hk & -> & ->). exists s, m. split.
    + by apply load_int64_Some.
    + apply bind_Some. exists (s * i), m. split; [|reflexivity].
      apply lift_Some. split; [|reflexivity]. by apply int64_mul_Some.
Qed.

Lemma PackedTensorAccessor_subscript_inv N this i m (A' : TensorAccessor.t (S N)) m' :
  PackedTensorAccessor.subscript this i m = Some (A', m') <->
  exists (P : PackedTensorAccessor.t (S (S N))) s,
    packed_at (S (S N)) m this = Some P /\
    read_int64 m (PackedTensorAccessorBase.strides_ptr this +i 0) = Some s /\
    in_int64 (s * i) = true /\ m' = m /\
    A' = MkTensorAccessor (pdata_ P +e s * i)
           (PackedTensorAccessorBase.sizes_ptr this +i 1)
           (PackedTensorAccessorBase.strides_ptr this +i 1).
Proof.
  unfold PackedTensorAccessor.subscript. rewrite bind_Some. split.
  - intros (P & m1 & [HP ->]%load_this_Some & H).
    apply bind_Some in H as (s & m2 & [Hs ->]%load_int64_Some & H).
    apply bind_Some in H as (k & m3 & [[Hk ->]%int64_mul_Some ->]%lift_Some & H).
    injection H as <- <-. eauto 8.
  - intros (P & s & HP & Hs & Hk & -> & ->). exists P, m. split.
    + by apply load_this_Some.
    + apply bind_Some. exists s, m. split; [by apply load_int64_Some|].
      apply bind_Some. exists (s * i), m. split; [|reflexivity].
      apply lift_Some. split; [|reflexivity]. by apply int64_mul_Some.
Qed.

Lemma PackedTensorAccessor_subscript1_inv this i m r m' :
  PackedTensorAccessor.subscript1 this i m = Some (r, m') <->
  exists (P : PackedTensorAccessor.t 1) s,
    packed_at 1 m this = Some P /\
    read_int64 m (PackedTensorAccessorBase.strides_ptr this +i 0) = Some s /\
    in_int64 (s * i) = true /\ m' = m /\ r = pdata_ P +e s * i.
Proof.
  unfold PackedTensorAccessor.subscript1. rewrite bind_Some. split.
  - intros (P & m1 & [HP ->]%load_this_Some & H).
    apply bind_Some in H as (s & m2 & [Hs ->]%load_int64_Some & H).
    apply bind_Some in H as (k & m3 & [[Hk ->]%int64_mul_Some ->]%lift_Some & H).
    injection H as <- <-. eauto 8.
  - intros (P & s & HP & Hs & Hk & -> & ->). exists P, m. split.
    + by apply load_this_Some.
    + apply bind_Some. exists s, m. split; [by apply load_int64_Some|].
      apply bind_Some. exists (s * i), m. split; [|reflexivity].
      apply lift_Some. split; [|reflexivity]. by apply int64_mul_Some.
Qed.

(** Reading the embedded arrays of the object at [this] through a pointer. *)
Lemma read_embedded_strides N m this (P : PackedTensorAccessor.t N) k :
  packed_at N m this = Some P ->
  read_int64 m (PackedTensorAccessorBase.strides_ptr this +i k)
  = nthZ (vec_to_list (pstrides_ P)) k.
Proof.
  intros HP%packed_at_Some. unfold read_int64, int64_array_at.
  cbn [iptr_add iarr iofs PackedTensorAccessorBase.strides_ptr].
  rewrite HP. f_equal.
Qed.

Lemma read_embedded_sizes N m this (P : PackedTensorAccessor.t N) k :
  packed_at N m this = Some P ->
  read_int64 m (PackedTensorAccessorBase.sizes_ptr this +i k)
  = nthZ (vec_to_list (psizes_ P)) k.
Proof.
  intros HP%packed_at_Some. unfold read_int64, int64_array_at.
  cbn [iptr_add iarr iofs PackedTensorAccessorBase.sizes_ptr].
  rewrite HP. f_equal.
Qed.
End Members.

(** ** Memory accesses *)
Section Accesses.
Context {T : Type}.
Implicit Types (m : mem T) (r : elem_ptr).

Lemma read_array_lookup N : forall (p : int64_ptr) m (v : vec Z N) (k : nat),
  read_array N p m = Some v -> (k < N)%nat ->
  read_int64 m (p +i Z.of_nat k) = vec_to_list v !! k.
Proof.
  induction N as [|n IH]; intros p m v k Hv Hk; [lia|].
  simpl in Hv.
  destruct (read_int64 m p) as [x|] eqn:Hx; [|discriminate].
  destruct (read_array n (p +i 1) m) as [xs|] eqn:Hxs; [|discriminate].
  injection Hv as <-. destruct k as [|k].
  - change (Z.of_nat 0) with 0. by rewrite iptr_add_0.
  - replace (p +i Z.of_nat (S k)) with (p +i 1 +i Z.of_nat k)
      by (rewrite iptr_add_assoc; f_equal; lia).
    rewrite (IH _ _ _ _ Hxs) by lia. reflexivity.
Qed.

Lemma read_array_at N (p : int64_ptr) m (v : vec Z N) (k : Z) :
  read_array N p m = Some v -> 0 <= k < Z.of_nat N ->
  exists x, vec_to_list v !! Z.to_nat k = Some x /\ read_int64 m (p +i k) = Some x.
Proof.
  intros Hv Hk.
  destruct (lookup_lt_is_Some_2 (vec_to_list v) (Z.to_nat k)) as [x Hx].
  { rewrite length_vec_to_list. lia. }
  exists x. split; [exact Hx|].
  rewrite <- Hx, <- (read_array_lookup N p m v (Z.to_nat k) Hv) by lia.
  f_equal. f_equal. lia.
Qed.

Lemma write_elem_spec m r v m' :
  write_elem m r v = Some m' ->
  read_elem m' r = Some v /\
  (forall r', r' <> r -> read_elem m' r' = read_elem m r') /\
  arrays m' = arrays m /\ packed m' = packed m.
Proof.
  unfold write_elem. destruct (buffers m !! eblk r) as [l|] eqn:Hl; [|discriminate].
  destruct (Z.leb_spec 0 (eofs r)) as [H0|]; [|discriminate].
  destruct (Z.ltb_spec (eofs r) (Z.of_nat (length l))) as [H1|]; [|discriminate].
  simpl.
  intros [= <-]. repeat split.
  - unfold read_elem. simpl. rewrite lookup_insert_eq. apply nthZ_Some.
    split; [exact H0|]. apply list_lookup_insert_eq. lia.
  - intros r' Hne. unfold read_elem. simpl.
    destruct (decide (eblk r' = eblk r)) as [e|n].
    + rewrite e, lookup_insert_eq, Hl. unfold nthZ.
      destruct (Z.leb_spec 0 (eofs r')); [|reflexivity].
      apply list_lookup_insert_ne. intros E.
      apply Hne. destruct r, r'. simpl in *. f_equal; [exact e|lia].
    + by rewrite lookup_insert_ne.
Qed.

Lemma write_elem_defined m r v :
  is_Some (read_elem m r) -> is_Some (write_elem m r v).
Proof.
  unfold read_elem, write_elem. destruct (buffers m !! eblk r) as [l|]; [|by intros [? ?]].
  intros [x [H0 Hx]%nthZ_Some]. apply lookup_lt_Some in Hx.
  destruct (Z.leb_spec 0 (eofs r)); [|lia].
  destruct (Z.ltb_spec (eofs r) (Z.of_nat (length l))); [|lia].
  simpl. eauto.
Qed.
End Accesses.

(** ** Indexing a reference accessor *)
Section ReferenceAccessor.
Context {T : Type}.
Implicit Types (m : mem T) (i k : Z).

(** C1.  For a reference accessor [A] of dimensionality [N >= 2] and an
    index [i], [A[i]] is a reference accessor of dimensionality [N - 1]
    (its type) whose data pointer is [A.data() + A.stride(0) * i] and whose
    sizes and strides pointers are those of [A] advanced by one element.
    The result is produced whenever [stride(0)] can be read and the
    [int64_t] product is representable. *)
Theorem TensorAccessor_subscript_spec
    N (A : TensorAccessor.t (S (S N))) i m s d :
  TensorAccessorBase.stride A 0 m = Some (s, m) ->
  TensorAccessorBase.data A m = Some (d, m) ->
  in_int64 (s * i) = true ->
  exists A' : TensorAccessor.t (S N),
    TensorAccessor.subscript A i m = Some (A', m) /\
    TensorAccessorBase.data A' m = Some (d +e s * i, m) /\
    sizes_ A' = sizes_ A +i 1 /\
    strides_ A' = strides_ A +i 1.
Proof.
  intros [Hs _]%load_int64_Some [= <-] Hk.
  exists (MkTensorAccessor (data_ A +e s * i) (sizes_ A +i 1) (strides_ A +i 1)).
  split; [|by repeat split].
  apply TensorAccessor_subscript_inv. eauto.
Qed.

(** C4.  For an [N]-dimensional accessor [A] ([N >= 2]) whose size and
    stride arrays hold [N] elements, the sub-accessor [A[i]] has
    [A[i].size(k) == A.size(k+1)] and [A[i].stride(k) == A.stride(k+1)],
    both sides being defined, for every dimension [k] of the sub-accessor,
    [0 <= k < N-1] (which includes the range [0 <= k < N-2]). *)
Theorem TensorAccessor_subscript_size_stride
    N (A : TensorAccessor.t (S (S N))) i m A' m' (sz st : vec Z (S (S N))) k :
  read_array (S (S N)) (sizes_ A) m = Some sz ->
  read_array (S (S N)) (strides_ A) m = Some st ->
  TensorAccessor.subscript A i m = Some (A', m') ->
  0 <= k < Z.of_nat (S N) ->
  exists x y,
    TensorAccessorBase.size A' k m' = Some (x, m') /\
    TensorAccessorBase.size A (k + 1) m = Some (x, m) /\
    TensorAccessorBase.stride A' k m' = Some (y, m') /\
    TensorAccessorBase.stride A (k + 1) m = Some (y, m).
Proof.
  intros Hsz Hst (s & _ & _ & -> & ->)%TensorAccessor_subscript_inv Hk.
  destruct (read_array_at _ _ _ _ (k + 1) Hsz) as (x & _ & Hx); [lia|].
  destruct (read_array_at _ _ _ _ (k + 1) Hst) as (y & _ & Hy); [lia|].
  exists x, y. unfold TensorAccessorBase.size, TensorAccessorBase.stride.
  cbn [sizes_ strides_]. rewrite !iptr_add_assoc, (Z.add_comm 1 k).
  repeat split; by apply load_int64_Some.
Qed.
End ReferenceAccessor.

(** ** Indexing a packed accessor *)
Section PackedAccessor.
Context {T : Type}.
Implicit Types (m : mem T) (i k : Z).

Lemma PackedTensorAccessor_subscript_defined
    N this (P : PackedTensorAccessor.t (S (S N))) i m s :
  packed_at (S (S N)) m this = Some P ->
  PackedTensorAccessorBase.stride (S (S N)) this 0 m = Some (s, m) ->
  in_int64 (s * i) = true ->
  PackedTensorAccessor.subscript (N:=N) this i m
  = Some (MkTensorAccessor (pdata_ P +e s * i)
            (IPtr (EmbeddedSizes this) 1) (IPtr (EmbeddedStrides this) 1), m).
Proof.
  intros HP Hs Hk. apply PackedTensorAccessor_subscript_inv.
  exists P, s. repeat split; try done.
  unfold PackedTensorAccessorBase.stride in Hs.
  apply bind_Some in Hs as (P' & m1 & [_ ->]%load_this_Some & Hs).
  by apply load_int64_Some in Hs as [Hs _].
Qed.

Lemma PackedTensorAccessor_borrowed_metadata
    N this (P : PackedTensorAccessor.t (S (S N))) (A' : TensorAccessor.t (S N)) m k :
  packed_at (S (S N)) m this = Some P ->
  sizes_ A' = PackedTensorAccessorBase.sizes_ptr this +i 1 ->
  strides_ A' = PackedTensorAccessorBase.strides_ptr this +i 1 ->
  TensorAccessorBase.size A' k m
  = PackedTensorAccessorBase.size (S (S N)) this (k + 1) m /\
  TensorAccessorBase.stride A' k m
  = PackedTensorAccessorBase.stride (S (S N)) this (k + 1) m.
Proof.
  intros HP Hsz Hst.
  unfold PackedTensorAccessorBase.size, PackedTensorAccessorBase.stride, bind,
    load_this, TensorAccessorBase.size, TensorAccessorBase.stride.
  rewrite HP, Hsz, Hst, !iptr_add_assoc.
  by rewrite (Z.add_comm 1 k).
Qed.
End PackedAccessor.

(** C2.  For a packed accessor [P] of dimensionality [N >= 2] stored at
    address [this], [P[i]] is a reference accessor of dimensionality [N - 1]
    whose data pointer is [P]'s offset by [P.stride(0) * i] and whose sizes
    and strides pointers point into the arrays embedded in the object at
    [this], one element in, so that they read [P]'s own sizes and strides
    from dimension 1 on.  In particular, for a packed accessor built from
    sizes [2,3] and strides [3,1], [P[0]] has [size(0) == 3],
    [stride(0) == 1] and the data pointer [P] was built with. *)
Theorem PackedTensorAccessor_subscript_spec :
  (forall (T : Type) N this (P : PackedTensorAccessor.t (S (S N))) i (m : mem T) s,
     packed_at (S (S N)) m this = Some P ->
     PackedTensorAccessorBase.stride (S (S N)) this 0 m = Some (s, m) ->
     in_int64 (s * i) = true ->
     exists A' : TensorAccessor.t (S N),
       PackedTensorAccessor.subscript this i m = Some (A', m) /\
       data_ A' = pdata_ P +e s * i /\
       sizes_ A' = IPtr (EmbeddedSizes this) 1 /\
       strides_ A' = IPtr (EmbeddedStrides this) 1 /\
       forall k,
         TensorAccessorBase.size A' k m
         = PackedTensorAccessorBase.size (S (S N)) this (k + 1) m /\
         TensorAccessorBase.stride A' k m
         = PackedTensorAccessorBase.stride (S (S N)) this (k + 1) m) /\
  (forall this : nat,
     exists (P : PackedTensorAccessor.t 2) (A' : TensorAccessor.t 1),
       PackedTensorAccessor.ctor 2 Scenario.data Scenario.sizes Scenario.strides
         Scenario.m0 = Some (P, Scenario.m0) /\
       let m1 := place this P Scenario.m0 in
       PackedTensorAccessor.subscript this 0 m1 = Some (A', m1) /\
       TensorAccessorBase.size A' 0 m1 = Some (3, m1) /\
       TensorAccessorBase.stride A' 0 m1 = Some (1, m1) /\
       TensorAccessorBase.data A' m1 = Some (Scenario.data, m1)).
Proof.
  split.
  - intros T N this P i m s HP Hs Hk. eexists. split.
    + by apply (PackedTensorAccessor_subscript_defined N this P i m s).
    + repeat split; by apply (PackedTensorAccessor_borrowed_metadata N this P).
  - intros this.
    set (P := MkPackedTensorAccessor Scenario.data [# 2; 3] [# 3; 1]).
    exists P, (MkTensorAccessor Scenario.data (IPtr (EmbeddedSizes this) 1)
                 (IPtr (EmbeddedStrides this) 1)).
    split; [reflexivity|]. intros m1.
    assert (HP : packed_at 2 m1 this = Some P) by apply packed_at_place_eq.
    split.
    + rewrite (PackedTensorAccessor_subscript_defined 0 this P 0 m1 3 HP);
        [reflexivity| |reflexivity].
      unfold PackedTensorAccessorBase.stride, bind, load_this. rewrite HP.
      apply load_int64_Some. split; [|reflexivity].
      by rewrite (read_embedded_strides 2 m1 this P).
    + repeat split.
      * apply load_int64_Some. split; [|reflexivity]. cbn [sizes_].
        change (IPtr (EmbeddedSizes this) 1 +i 0)
          with (PackedTensorAccessorBase.sizes_ptr this +i 1).
        by rewrite (read_embedded_sizes 2 m1 this P).
      * apply load_int64_Some. split; [|reflexivity]. cbn [strides_].
        change (IPtr (EmbeddedStrides this) 1 +i 0)
          with (PackedTensorAccessorBase.strides_ptr this +i 1).
        by rewrite (read_embedded_strides 2 m1 this P).
Qed.

(** C3.  For a 1-dimensional accessor, reference ([A]) or packed (at
    [this]), [A[i]] is an element reference whose address is
    [A.data() + A.stride(0) * i]; assigning through a reference to an
    existing element changes the buffer at that address and nowhere else;
    and a subscript yields an element exactly when the accessor is
    1-dimensional, a lower-dimensional accessor otherwise. *)
Theorem one_dimensional_subscript_spec (T : Type) :
  (forall (A : TensorAccessor.t 1) i (m : mem T) s d,
     TensorAccessorBase.stride A 0 m = Some (s, m) ->
     TensorAccessorBase.data A m = Some (d, m) ->
     in_int64 (s * i) = true ->
     TensorAccessor.subscript1 A i m = Some (d +e s * i, m)) /\
  (forall this (P : PackedTensorAccessor.t 1) i (m : mem T) s,
     packed_at 1 m this = Some P ->
     PackedTensorAccessorBase.stride 1 this 0 m = Some (s, m) ->
     in_int64 (s * i) = true ->
     PackedTensorAccessor.subscript1 this i m = Some (pdata_ P +e s * i, m)) /\
  (forall (r : elem_ptr) (v : T) (m : mem T),
     is_Some (read_elem m r) ->
     exists m', store_elem r v m = Some (tt, m') /\
       read_elem m' r = Some v /\
       (forall r', r' <> r -> read_elem m' r' = read_elem m r') /\
       arrays m' = arrays m /\ packed m' = packed m) /\
  (forall N (A : TensorAccessor.t (S N)) i (m : mem T) x m',
     accessor_subscript N A i m = Some (x, m') ->
     match x with
     | Element _ => N = 0%nat
     | SubAccessor N' _ => N = N' /\ N <> 0%nat
     end) /\
  (forall N this i (m : mem T) x m',
     packed_subscript N this i m = Some (x, m') ->
     match x with
     | Element _ => N = 0%nat
     | SubAccessor N' _ => N = N' /\ N <> 0%nat
     end).
Proof.
  repeat split.
  - intros A i m s d [Hs _]%load_int64_Some [= <-] Hk.
    apply TensorAccessor_subscript1_inv. eauto.
  - intros this P i m s HP Hs Hk. apply PackedTensorAccessor_subscript1_inv.
    exists P, s. repeat split; try done.
    unfold PackedTensorAccessorBase.stride in Hs.
    apply bind_Some in Hs as (P' & m1 & [_ ->]%load_this_Some & Hs).
    by apply load_int64_Some in Hs as [Hs _].
  - intros r v m Hr. destruct (write_elem_defined m r v Hr) as [m' Hm'].
    exists m'. split.
    + unfold store_elem. by rewrite Hm'.
    + by apply write_elem_spec.
  - intros N A i m x m' H. destruct N as [|n]; simpl in H.
    + apply bind_Some in H as (r & m1 & _ & [= <- _]). reflexivity.
    + apply bind_Some in H as (A' & m1 & _ & [= <- _]). by split.
  - intros N this i m x m' H. destruct N as [|n]; simpl in H.
    + apply bind_Some in H as (r & m1 & _ & [= <- _]). reflexivity.
    + apply bind_Some in H as (A' & m1 & _ & [= <- _]). by split.
Qed.

(** C7.  Indexing is a pure function of the receiver and the index: every
    member function of either family ([operator[]] of all four classes,
    [size], [stride], [data]) returns its result in an unchanged memory; in
    particular the packed accessor object at [this] keeps its data pointer,
    sizes and strides.  The receiver of a reference accessor is a value and
    the result is another value. *)
Theorem accessor_operations_do_not_mutate (T : Type) :
  (forall N (A : TensorAccessor.t (S (S N))) i (m : mem T) A' m',
     TensorAccessor.subscript A i m = Some (A', m') -> m' = m) /\
  (forall (A : TensorAccessor.t 1) i (m : mem T) r m',
     TensorAccessor.subscript1 A i m = Some (r, m') -> m' = m) /\
  (forall N this i (m : mem T) (A' : TensorAccessor.t (S N)) m',
     PackedTensorAccessor.subscript this i m = Some (A', m') ->
     m' = m /\ packed m' !! this = packed m !! this) /\
  (forall this i (m : mem T) r m',
     PackedTensorAccessor.subscript1 this i m = Some (r, m') ->
     m' = m /\ packed m' !! this = packed m !! this) /\
  (forall N (A : TensorAccessor.t N) i (m : mem T) z m',
     TensorAccessorBase.size A i m = Some (z, m') \/
     TensorAccessorBase.stride A i m = Some (z, m') -> m' = m) /\
  (forall N (A : TensorAccessor.t N) (m : mem T) d m',
     TensorAccessorBase.data A m = Some (d, m') -> m' = m) /\
  (forall N this i (m : mem T) z m',
     PackedTensorAccessorBase.size N this i m = Some (z, m') \/
     PackedTensorAccessorBase.stride N this i m = Some (z, m') -> m' = m).
Proof.
  split; [|split; [|split; [|split; [|split; [|split]]]]].
  - by intros N A i m A' m' (s & _ & _ & -> & _)%TensorAccessor_subscript_inv.
  - by intros A i m r m' (s & _ & _ & -> & _)%TensorAccessor_subscript1_inv.
  - by intros N this i m A' m'
      (P & s & _ & _ & _ & -> & _)%PackedTensorAccessor_subscript_inv.
  - by intros this i m r m'
      (P & s & _ & _ & _ & -> & _)%PackedTensorAccessor_subscript1_inv.
  - by intros N A i m z m' [[_ ->]%load_int64_Some|[_ ->]%load_int64_Some].
  - by intros N A m d m' [= _ <-].
  - intros N this i m z m'
      [(P & m1 & [_ ->]%load_this_Some & [_ ->]%load_int64_Some)%bind_Some
      |(P & m1 & [_ ->]%load_this_Some & [_ ->]%load_int64_Some)%bind_Some];
      reflexivity.
Qed.

(** ** Construction and copy of packed accessors *)
Section PackedValue.
Context {T : Type}.
Implicit Types (m : mem T) (i k : Z).

Lemma PackedTensorAccessor_ctor_defined N d sp stp m (sz st : vec Z N) :
  read_array N sp m = Some sz ->
  read_array N stp m = Some st ->
  PackedTensorAccessor.ctor N d sp stp m = Some (MkPackedTensorAccessor d sz st, m).
Proof.
  intros Hsz Hst.
  unfold PackedTensorAccessor.ctor, PackedTensorAccessorBase.ctor, bind, std_copy, ret.
  by rewrite Hsz, Hst.
Qed.

Lemma PackedTensorAccessorBase_size_run N this (P : PackedTensorAccessor.t N) m i :
  packed_at N m this = Some P ->
  PackedTensorAccessorBase.size N this i m
  = match nthZ (vec_to_list (psizes_ P)) i with Some z => Some (z, m) | None => None end.
Proof.
  intros HP. unfold PackedTensorAccessorBase.size, bind, load_this, load_int64.
  by rewrite HP, (read_embedded_sizes N m this P).
Qed.

Lemma PackedTensorAccessorBase_stride_run N this (P : PackedTensorAccessor.t N) m i :
  packed_at N m this = Some P ->
  PackedTensorAccessorBase.stride N this i m
  = match nthZ (vec_to_list (pstrides_ P)) i with Some z => Some (z, m) | None => None end.
Proof.
  intros HP. unfold PackedTensorAccessorBase.stride, bind, load_this, load_int64.
  by rewrite HP, (read_embedded_strides N m this P).
Qed.

Lemma packed_reads_source N this (P : PackedTensorAccessor.t N) m m0 sp stp k :
  packed_at N m this = Some P ->
  read_array N sp m0 = Some (psizes_ P) ->
  read_array N stp m0 = Some (pstrides_ P) ->
  0 <= k < Z.of_nat N ->
  exists x y,
    read_int64 m0 (sp +i k) = Some x /\
    read_int64 m0 (stp +i k) = Some y /\
    PackedTensorAccessorBase.size N this k m = Some (x, m) /\
    PackedTensorAccessorBase.stride N this k m = Some (y, m).
Proof.
  intros HP Hsz Hst Hk.
  destruct (read_array_at _ _ _ _ k Hsz Hk) as (x & Hx & Hx').
  destruct (read_array_at _ _ _ _ k Hst Hk) as (y & Hy & Hy').
  exists x, y. repeat split; try done.
  - rewrite (PackedTensorAccessorBase_size_run N this P m k HP).
    assert (nthZ (vec_to_list (psizes_ P)) k = Some x) as ->; [|done].
    apply nthZ_Some. split; [lia|done].
  - rewrite (PackedTensorAccessorBase_stride_run N this P m k HP).
    assert (nthZ (vec_to_list (pstrides_ P)) k = Some y) as ->; [|done].
    apply nthZ_Some. split; [lia|done].
Qed.

(** C5.  Round trip: a packed accessor constructed from a data pointer and
    size and stride arrays of [N] elements is produced, and wherever the
    object is stored, [size(k)] and [stride(k)] return, for every
    [0 <= k < N], the values the source arrays held when it was
    constructed. *)
Theorem PackedTensorAccessor_ctor_roundtrip
    N d sp stp m (sz st : vec Z N) :
  read_array N sp m = Some sz ->
  read_array N stp m = Some st ->
  exists P : PackedTensorAccessor.t N,
    PackedTensorAccessor.ctor N d sp stp m = Some (P, m) /\
    forall this k, 0 <= k < Z.of_nat N ->
      let m1 := place this P m in
      exists x y,
        read_int64 m (sp +i k) = Some x /\
        read_int64 m (stp +i k) = Some y /\
        PackedTensorAccessorBase.size N this k m1 = Some (x, m1) /\
        PackedTensorAccessorBase.stride N this k m1 = Some (y, m1).
Proof.
  intros Hsz Hst. exists (MkPackedTensorAccessor d sz st). split.
  - by apply PackedTensorAccessor_ctor_defined.
  - intros this k Hk m1.
    apply (packed_reads_source N this (MkPackedTensorAccessor d sz st)); try done.
    apply packed_at_place_eq.
Qed.

(** C6.  A copy of a packed accessor is self-contained: after the
    accessor built from the source arrays is copied from [src] to [dst],
    then in every memory that still holds the copy, whatever became of the
    source arrays, of the original and of everything else, the copy's data
    pointer, [size(i)] and [stride(i)] are those of the original, and for
    [0 <= k < N] they are the values captured at construction. *)
Theorem PackedTensorAccessor_copy_self_contained
    N d sp stp m0 (sz st : vec Z N) src dst :
  read_array N sp m0 = Some sz ->
  read_array N stp m0 = Some st ->
  exists (P : PackedTensorAccessor.t N) m1,
    PackedTensorAccessor.ctor N d sp stp m0 = Some (P, m0) /\
    PackedTensorAccessorBase.copy N src dst (place src P m0) = Some (tt, m1) /\
    forall m2, packed m2 !! dst = packed m1 !! dst ->
      pdata_ <$> packed_at N m2 dst = Some d /\
      (forall i,
         fst <$> PackedTensorAccessorBase.size N dst i m2
         = fst <$> PackedTensorAccessorBase.size N src i (place src P m0) /\
         fst <$> PackedTensorAccessorBase.stride N dst i m2
         = fst <$> PackedTensorAccessorBase.stride N src i (place src P m0)) /\
      (forall k, 0 <= k < Z.of_nat N ->
         exists x y,
           read_int64 m0 (sp +i k) = Some x /\
           read_int64 m0 (stp +i k) = Some y /\
           PackedTensorAccessorBase.size N dst k m2 = Some (x, m2) /\
           PackedTensorAccessorBase.stride N dst k m2 = Some (y, m2)).
Proof.
  intros Hsz Hst. set (P := MkPackedTensorAccessor d sz st).
  exists P, (place dst P (place src P m0)). split; [|split].
  - by apply PackedTensorAccessor_ctor_defined.
  - unfold PackedTensorAccessorBase.copy, bind, load_this, store_this.
    by rewrite packed_at_place_eq.
  - intros m2 Hm2.
    assert (HQ : packed_at N m2 dst = Some P).
    { apply packed_at_Some. rewrite Hm2. apply packed_at_Some, packed_at_place_eq. }
    assert (HP : packed_at N (place src P m0) src = Some P)
      by apply packed_at_place_eq.
    split; [by rewrite HQ|]. split.
    + intros i.
      rewrite (PackedTensorAccessorBase_size_run N dst P m2 i HQ),
        (PackedTensorAccessorBase_size_run N src P _ i HP),
        (PackedTensorAccessorBase_stride_run N dst P m2 i HQ),
        (PackedTensorAccessorBase_stride_run N src P _ i HP).
      split; [by destruct (nthZ (vec_to_list (psizes_ P)) i)
             |by destruct (nthZ (vec_to_list (pstrides_ P)) i)].
    + intros k Hk. by apply (packed_reads_source N dst P m2 m0).
Qed.
End PackedValue.

(** ** Chained indexing *)

(** C8.  For the 2-dimensional accessor over [data = [10,11,12,13,14,15]]
    with sizes [2,3] and strides [3,1], [A[1][2]] is the address
    [data + 1*3 + 2*1], which is [data[5]] and holds 15. *)
Theorem scenario_A_1_2 :
  accessor_element 1 Scenario.A [1; 2] Scenario.m0
  = Some (Scenario.data +e 1 * 3 +e 2 * 1, Scenario.m0) /\
  Scenario.data +e 1 * 3 +e 2 * 1 = Scenario.data +e 5 /\
  read_elem Scenario.m0 (Scenario.data +e 5) = Some 15.
Proof. split; [|split]; vm_compute; reflexivity. Qed.

Section Chains.
Context {T : Type}.
Implicit Types (m : mem T) (i k : Z) (idx : list Z).

Lemma TensorAccessor_subscript_run N (A : TensorAccessor.t (S (S N))) i m :
  TensorAccessor.subscript A i m
  = match read_int64 m (strides_ A +i 0) with
    | Some s =>
        match int64_mul s i with
        | Some k => Some (MkTensorAccessor (data_ A +e k) (sizes_ A +i 1)
                            (strides_ A +i 1), m)
        | None => None
        end
    | None => None
    end.
Proof.
  unfold TensorAccessor.subscript, bind, load_int64, lift, ret.
  destruct (read_int64 m (strides_ A +i 0)) as [s|]; [|reflexivity].
  by destruct (int64_mul s i).
Qed.

Lemma TensorAccessor_subscript1_run (A : TensorAccessor.t 1) i m :
  TensorAccessor.subscript1 A i m
  = match read_int64 m (strides_ A +i 0) with
    | Some s =>
        match int64_mul s i with
        | Some k => Some (data_ A +e k, m)
        | None => None
        end
    | None => None
    end.
Proof.
  unfold TensorAccessor.subscript1, bind, load_int64, lift, ret.
  destruct (read_int64 m (strides_ A +i 0)) as [s|]; [|reflexivity].
  by destruct (int64_mul s i).
Qed.

Lemma read_array_S N (p : int64_ptr) m :
  read_array (S N) p m
  = match read_int64 m p with
    | Some x =>
        match read_array N (p +i 1) m with
        | Some xs => Some (x ::: xs)
        | None => None
        end
    | None => None
    end.
Proof. reflexivity. Qed.

Lemma read_array_intro N : forall (p : int64_ptr) m (v : vec Z N),
  (forall j : nat, (j < N)%nat -> read_int64 m (p +i Z.of_nat j) = vec_to_list v !! j) ->
  read_array N p m = Some v.
Proof.
  induction N as [|n IH]; intros p m v Hv.
  - by inv_vec v.
  - inv_vec v; intros x xs Hv. simpl.
    pose proof (Hv 0%nat ltac:(lia)) as H0.
    change (Z.of_nat 0) with 0 in H0. rewrite iptr_add_0 in H0. simpl in H0.
    rewrite H0, (IH (p +i 1) m xs); [reflexivity|].
    intros j Hj. rewrite iptr_add_assoc.
    replace (1 + Z.of_nat j) with (Z.of_nat (S j)) by lia.
    rewrite (Hv (S j)) by lia. reflexivity.
Qed.

Lemma read_array_embedded_strides N m this (P : PackedTensorAccessor.t N) :
  packed_at N m this = Some P ->
  read_array N (PackedTensorAccessorBase.strides_ptr this) m = Some (pstrides_ P).
Proof.
  intros HP. apply read_array_intro. intros j _.
  by rewrite (read_embedded_strides N m this P), nthZ_of_nat.
Qed.

(** The address formula for reference accessors. *)
Lemma accessor_element_formula N :
  forall (A : TensorAccessor.t (S N)) idx m (st : vec Z (S N)),
    read_array (S N) (strides_ A) m = Some st ->
    length idx = S N ->
    products_in_int64 (vec_to_list st) idx = true ->
    accessor_element N A idx m = Some (data_ A +e dot (vec_to_list st) idx, m).
Proof.
  induction N as [|n IH]; intros A idx m st Hst Hlen Hprod.
  - inv_vec st; intros s Hst Hprod.
    destruct idx as [|i [|? ?]]; try discriminate.
    simpl in Hst, Hprod.
    destruct (read_int64 m (strides_ A)) as [s0|] eqn:Hs; [|discriminate].
    injection Hst as ->. rewrite andb_true_r in Hprod. simpl.
    rewrite TensorAccessor_subscript1_run, iptr_add_0, Hs.
    unfold int64_mul. rewrite Hprod. do 3 f_equal. lia.
  - destruct (vec_S_view st) as (s & st' & ->).
    destruct idx as [|i rest]; [discriminate|].
    rewrite read_array_S in Hst. cbn [products_in_int64 vec_to_list] in Hprod.
    destruct (read_int64 m (strides_ A)) as [s0|] eqn:Hs; [|discriminate].
    destruct (read_array (S n) (strides_ A +i 1) m) as [st0|] eqn:Hst';
      [|discriminate].
    assert (s0 = s /\ st0 = st') as [-> ->].
    { assert (E : s0 ::: st0 = s ::: st') by congruence.
      split; [by apply vcons_inj_1 in E | by apply vcons_inj_2 in E]. }
    apply andb_prop in Hprod as [Hk Hprod].
    simpl. unfold bind.
    rewrite TensorAccessor_subscript_run, iptr_add_0, Hs.
    unfold int64_mul. rewrite Hk.
    rewrite (IH _ rest m st'); [| exact Hst' | simpl in Hlen; lia | exact Hprod].
    cbn [data_]. by rewrite eptr_add_assoc.
Qed.

Lemma packed_element_formula N this (P : PackedTensorAccessor.t (S N)) idx m :
  packed_at (S N) m this = Some P ->
  length idx = S N ->
  products_in_int64 (vec_to_list (pstrides_ P)) idx = true ->
  packed_element N this idx m
  = Some (pdata_ P +e dot (vec_to_list (pstrides_ P)) idx, m).
Proof.
  intros HP Hlen Hprod.
  pose proof (read_array_embedded_strides _ m this P HP) as Hst.
  pose proof (read_embedded_strides _ m this P 0 HP) as Hs.
  destruct P as [d sz st]. cbn [pstrides_ pdata_] in *.
  destruct (vec_S_view st) as (s & st' & ->).
  destruct idx as [|i rest]; [discriminate|].
  simpl in Hprod. apply andb_prop in Hprod as [Hk Hprod].
  change (nthZ (vec_to_list (s ::: st')) 0) with (Some s) in Hs.
  destruct N as [|n].
  - destruct rest; [|discriminate]. rewrite (vec_0_view st') in *. simpl.
    apply PackedTensorAccessor_subscript1_inv.
    eexists _, s. repeat split; [exact HP|exact Hs|exact Hk|].
    cbn [pdata_]. f_equal. lia.
  - simpl. apply bind_Some.
    exists (MkTensorAccessor (d +e s * i)
              (PackedTensorAccessorBase.sizes_ptr this +i 1)
              (PackedTensorAccessorBase.strides_ptr this +i 1)), m.
    split.
    + apply PackedTensorAccessor_subscript_inv.
      exists (MkPackedTensorAccessor d sz (s ::: st')), s.
      repeat split; [exact HP|exact Hs|exact Hk].
    + rewrite read_array_S in Hst. rewrite iptr_add_0 in Hs.
      change (PackedTensorAccessorBase.strides_ptr this +i 0)
        with (PackedTensorAccessorBase.strides_ptr this) in Hs.
      destruct (read_int64 m (PackedTensorAccessorBase.strides_ptr this)) as [z|];
        [|discriminate].
      destruct (read_array (S n) (PackedTensorAccessorBase.strides_ptr this +i 1) m)
        as [st0|] eqn:Hst'; [|discriminate].
      assert (st0 = st') as ->.
      { assert (E : z ::: st0 = s ::: st') by congruence.
        by apply vcons_inj_2 in E. }
      rewrite (accessor_element_formula n _ rest m st');
        [| exact Hst' | simpl in Hlen; lia | exact Hprod].
      cbn [data_]. by rewrite eptr_add_assoc.
Qed.
End Chains.

(** C9.  The address formula: for an accessor with [N] strides [s] (a
    reference accessor, or a packed accessor whose first subscript yields a
    reference accessor) and [N] indices, the fully chained subscript
    [A[i_0][i_1]...[i_{N-1}]] is the element at offset
    [s[0]*i_0 + s[1]*i_1 + ... + s[N-1]*i_{N-1}] from the data pointer,
    whenever each [int64_t] product is representable. *)
Theorem chained_subscript_address (T : Type) :
  (forall N (A : TensorAccessor.t (S N)) (idx : list Z) (m : mem T) (st : vec Z (S N)),
     read_array (S N) (strides_ A) m = Some st ->
     length idx = S N ->
     products_in_int64 (vec_to_list st) idx = true ->
     accessor_element N A idx m = Some (data_ A +e dot (vec_to_list st) idx, m)) /\
  (forall N this (P : PackedTensorAccessor.t (S N)) (idx : list Z) (m : mem T),
     packed_at (S N) m this = Some P ->
     length idx = S N ->
     products_in_int64 (vec_to_list (pstrides_ P)) idx = true ->
     packed_element N this idx m
     = Some (pdata_ P +e dot (vec_to_list (pstrides_ P)) idx, m)).
Proof.
  split.
  - intros N A idx m st. apply accessor_element_formula.
  - intros N this P idx m. apply packed_element_formula.
Qed.

(** ** Sizes do not influence addressing *)
Section Noninterference.
Context {T : Type}.
Implicit Types (m : mem T) (i k : Z) (idx : list Z).

Lemma PackedTensorAccessor_subscript_run
    N this (P : PackedTensorAccessor.t (S (S N))) i m :
  packed_at (S (S N)) m this = Some P ->
  PackedTensorAccessor.subscript (N:=N) this i m
  = match nthZ (vec_to_list (pstrides_ P)) 0 with
    | Some s =>
        match int64_mul s i with
        | Some k => Some (MkTensorAccessor (pdata_ P +e k)
                            (PackedTensorAccessorBase.sizes_ptr this +i 1)
                            (PackedTensorAccessorBase.strides_ptr this +i 1), m)
        | None => None
        end
    | None => None
    end.
Proof.
  intros HP. unfold PackedTensorAccessor.subscript, bind, load_this, load_int64, lift, ret.
  rewrite HP, (read_embedded_strides _ m this P 0 HP).
  destruct (nthZ (vec_to_list (pstrides_ P)) 0) as [s|]; [|reflexivity].
  by destruct (int64_mul s i).
Qed.

Lemma PackedTensorAccessor_subscript1_run this (P : PackedTensorAccessor.t 1) i m :
  packed_at 1 m this = Some P ->
  PackedTensorAccessor.subscript1 this i m
  = match nthZ (vec_to_list (pstrides_ P)) 0 with
    | Some s =>
        match int64_mul s i with
        | Some k => Some (pdata_ P +e k, m)
        | None => None
        end
    | None => None
    end.
Proof.
  intros HP. unfold PackedTensorAccessor.subscript1, bind, load_this, load_int64, lift, ret.
  rewrite HP, (read_embedded_strides _ m this P 0 HP).
  destruct (nthZ (vec_to_list (pstrides_ P)) 0) as [s|]; [|reflexivity].
  by destruct (int64_mul s i).
Qed.

Lemma accessor_element_strides_only N :
  forall (A B : TensorAccessor.t (S N)) idx m1 m2,
    data_ A = data_ B ->
    (forall k, 0 <= k < Z.of_nat (S N) ->
       read_int64 m1 (strides_ A +i k) = read_int64 m2 (strides_ B +i k)) ->
    fst <$> accessor_element N A idx m1 = fst <$> accessor_element N B idx m2.
Proof.
  induction N as [|n IH]; intros A B idx m1 m2 Hd Hs;
    pose proof (Hs 0 ltac:(lia)) as H0.
  - destruct idx as [|i [|? ?]]; try reflexivity. simpl.
    rewrite !TensorAccessor_subscript1_run, H0, Hd.
    destruct (read_int64 m2 (strides_ B +i 0)) as [s|]; [|reflexivity].
    by destruct (int64_mul s i).
  - destruct idx as [|i rest]; [reflexivity|]. simpl. unfold bind.
    rewrite !TensorAccessor_subscript_run, H0, Hd.
    destruct (read_int64 m2 (strides_ B +i 0)) as [s|]; [|reflexivity].
    destruct (int64_mul s i) as [k|]; [|reflexivity].
    apply IH; [reflexivity|]. intros j Hj. cbn [strides_].
    rewrite !iptr_add_assoc. apply Hs. lia.
Qed.

Lemma packed_element_strides_only N this1 this2
    (P1 P2 : PackedTensorAccessor.t (S N)) idx m1 m2 :
  packed_at (S N) m1 this1 = Some P1 ->
  packed_at (S N) m2 this2 = Some P2 ->
  pdata_ P1 = pdata_ P2 ->
  pstrides_ P1 = pstrides_ P2 ->
  fst <$> packed_element N this1 idx m1 = fst <$> packed_element N this2 idx m2.
Proof.
  intros HP1 HP2 Hd Hs. destruct N as [|n].
  - destruct idx as [|i [|? ?]]; try reflexivity. simpl.
    rewrite (PackedTensorAccessor_subscript1_run this1 P1 i m1 HP1),
      (PackedTensorAccessor_subscript1_run this2 P2 i m2 HP2), Hd, Hs.
    destruct (nthZ (vec_to_list (pstrides_ P2)) 0) as [s|]; [|reflexivity].
    by destruct (int64_mul s i).
  - destruct idx as [|i rest]; [reflexivity|]. simpl. unfold bind.
    rewrite (PackedTensorAccessor_subscript_run n this1 P1 i m1 HP1),
      (PackedTensorAccessor_subscript_run n this2 P2 i m2 HP2), Hd, Hs.
    destruct (nthZ (vec_to_list (pstrides_ P2)) 0) as [s|]; [|reflexivity].
    destruct (int64_mul s i) as [k|]; [|reflexivity].
    apply accessor_element_strides_only; [reflexivity|].
    intros j _. cbn [strides_]. rewrite !iptr_add_assoc.
    by rewrite (read_embedded_strides _ m1 this1 P1 _ HP1),
      (read_embedded_strides _ m2 this2 P2 _ HP2), Hs.
Qed.
End Noninterference.

(** C10.  Sizes never influence addressing.  Two accessors with the same
    data pointer and the same strides, whatever their sizes pointers and
    whatever the size arrays hold (the two memories may differ arbitrarily
    outside the strides), resolve every chain of subscripts with the same
    indices to the same element address, or are both undefined; this holds
    for reference accessors, for packed accessors, and for a single
    [operator[]], whose data pointer depends on [data_] and [stride(0)]
    only. *)
Theorem sizes_do_not_influence_addressing (T : Type) :
  (forall N (A B : TensorAccessor.t (S N)) (idx : list Z) (m1 m2 : mem T),
     data_ A = data_ B ->
     (forall k, 0 <= k < Z.of_nat (S N) ->
        fst <$> TensorAccessorBase.stride A k m1
        = fst <$> TensorAccessorBase.stride B k m2) ->
     fst <$> accessor_element N A idx m1 = fst <$> accessor_element N B idx m2) /\
  (forall N this1 this2 (P1 P2 : PackedTensorAccessor.t (S N)) (idx : list Z)
          (m1 m2 : mem T),
     packed_at (S N) m1 this1 = Some P1 ->
     packed_at (S N) m2 this2 = Some P2 ->
     pdata_ P1 = pdata_ P2 ->
     pstrides_ P1 = pstrides_ P2 ->
     fst <$> packed_element N this1 idx m1 = fst <$> packed_element N this2 idx m2) /\
  (forall N (A B : TensorAccessor.t (S (S N))) i (m1 m2 : mem T),
     data_ A = data_ B ->
     fst <$> TensorAccessorBase.stride A 0 m1
     = fst <$> TensorAccessorBase.stride B 0 m2 ->
     (fun r => data_ (fst r)) <$> TensorAccessor.subscript A i m1
     = (fun r => data_ (fst r)) <$> TensorAccessor.subscript B i m2).
Proof.
  assert (Hread : forall N (A B : TensorAccessor.t N) k (m1 m2 : mem T),
            fst <$> TensorAccessorBase.stride A k m1
            = fst <$> TensorAccessorBase.stride B k m2 ->
            read_int64 m1 (strides_ A +i k) = read_int64 m2 (strides_ B +i k)).
  { intros N A B k m1 m2. unfold TensorAccessorBase.stride, load_int64.
    destruct (read_int64 m1 (strides_ A +i k)), (read_int64 m2 (strides_ B +i k));
      simpl; congruence. }
  split; [|split].
  - intros N A B idx m1 m2 Hd Hs. apply accessor_element_strides_only; [exact Hd|].
    intros k Hk. apply Hread, Hs, Hk.
  - intros N this1 this2 P1 P2 idx m1 m2. apply packed_element_strides_only.
  - intros N A B i m1 m2 Hd Hs%Hread.
    rewrite !TensorAccessor_subscript_run, Hs, Hd.
    destruct (read_int64 m2 (strides_ B +i 0)) as [s|]; [|reflexivity].
    by destruct (int64_mul s i).
Qed.

(** ** The theorems at work on the scenario *)

Lemma TensorAccessor_subscript_spec_witness :
  exists A' : TensorAccessor.t 1,
    TensorAccessor.subscript Scenario.A 1 Scenario.m0 = Some (A', Scenario.m0) /\
    TensorAccessorBase.data A' Scenario.m0
    = Some (Scenario.data +e 3 * 1, Scenario.m0) /\
    sizes_ A' = sizes_ Scenario.A +i 1 /\
    strides_ A' = strides_ Scenario.A +i 1.
Proof.
  apply (TensorAccessor_subscript_spec 0 Scenario.A 1 Scenario.m0 3 Scenario.data);
    reflexivity.
Defined.

Lemma TensorAccessor_subscript_size_stride_witness :
  exists x y,
    TensorAccessorBase.size Scenario.row1 0 Scenario.m0 = Some (x, Scenario.m0) /\
    TensorAccessorBase.size Scenario.A (0 + 1) Scenario.m0 = Some (x, Scenario.m0) /\
    TensorAccessorBase.stride Scenario.row1 0 Scenario.m0 = Some (y, Scenario.m0) /\
    TensorAccessorBase.stride Scenario.A (0 + 1) Scenario.m0 = Some (y, Scenario.m0).
Proof.
  apply (TensorAccessor_subscript_size_stride 0 Scenario.A 1 Scenario.m0
           Scenario.row1 Scenario.m0 [# 2; 3] [# 3; 1] 0);
    [reflexivity | reflexivity | reflexivity | lia].
Defined.

Lemma PackedTensorAccessor_subscript_spec_witness :
  exists A' : TensorAccessor.t 1,
    PackedTensorAccessor.subscript 7%nat 1 Scenario.mp = Some (A', Scenario.mp) /\
    data_ A' = pdata_ Scenario.P2 +e 3 * 1 /\
    sizes_ A' = IPtr (EmbeddedSizes 7) 1 /\
    strides_ A' = IPtr (EmbeddedStrides 7) 1 /\
    forall k,
      TensorAccessorBase.size A' k Scenario.mp
      = PackedTensorAccessorBase.size 2 7%nat (k + 1) Scenario.mp /\
      TensorAccessorBase.stride A' k Scenario.mp
      = PackedTensorAccessorBase.stride 2 7%nat (k + 1) Scenario.mp.
Proof.
  apply (proj1 PackedTensorAccessor_subscript_spec Z 0%nat 7%nat Scenario.P2 1
           Scenario.mp 3); reflexivity.
Defined.

Lemma one_dimensional_subscript_spec_witness :
  TensorAccessor.subscript1 Scenario.row1 2 Scenario.m0
  = Some (Scenario.data +e 3 +e 1 * 2, Scenario.m0) /\
  PackedTensorAccessor.subscript1 8%nat 2 Scenario.mp
  = Some (pdata_ Scenario.P1 +e 1 * 2, Scenario.mp) /\
  (exists m', store_elem (Scenario.data +e 5) 42 Scenario.m0 = Some (tt, m') /\
     read_elem m' (Scenario.data +e 5) = Some 42 /\
     (forall r', r' <> Scenario.data +e 5 -> read_elem m' r' = read_elem Scenario.m0 r') /\
     arrays m' = arrays Scenario.m0 /\ packed m' = packed Scenario.m0) /\
  1%nat = 1%nat /\ 0%nat = 0%nat.
Proof.
  destruct (one_dimensional_subscript_spec Z) as (H1 & H2 & H3 & H4 & H5).
  split; [|split; [|split; [|split]]].
  - apply (H1 Scenario.row1 2 Scenario.m0 1 (Scenario.data +e 3)); reflexivity.
  - apply (H2 8%nat Scenario.P1 2 Scenario.mp 1); reflexivity.
  - apply (H3 (Scenario.data +e 5) 42 Scenario.m0). exists 15. reflexivity.
  - apply (H4 1%nat Scenario.A 1 Scenario.m0
             (SubAccessor 1 Scenario.row1) Scenario.m0). reflexivity.
  - apply (H5 0%nat 8%nat 2 Scenario.mp
             (Element (pdata_ Scenario.P1 +e 1 * 2)) Scenario.mp). reflexivity.
Defined.

Lemma PackedTensorAccessor_ctor_roundtrip_witness :
  exists P : PackedTensorAccessor.t 2,
    PackedTensorAccessor.ctor 2 Scenario.data Scenario.sizes Scenario.strides
      Scenario.m0 = Some (P, Scenario.m0) /\
    forall this k, 0 <= k < Z.of_nat 2 ->
      let m1 := place this P Scenario.m0 in
      exists x y,
        read_int64 Scenario.m0 (Scenario.sizes +i k) = Some x /\
        read_int64 Scenario.m0 (Scenario.strides +i k) = Some y /\
        PackedTensorAccessorBase.size 2 this k m1 = Some (x, m1) /\
        PackedTensorAccessorBase.stride 2 this k m1 = Some (y, m1).
Proof.
  apply (PackedTensorAccessor_ctor_roundtrip 2 Scenario.data Scenario.sizes
           Scenario.strides Scenario.m0 [# 2; 3] [# 3; 1]); reflexivity.
Defined.

Lemma PackedTensorAccessor_copy_self_contained_witness :
  exists (P : PackedTensorAccessor.t 2) m1,
    PackedTensorAccessor.ctor 2 Scenario.data Scenario.sizes Scenario.strides
      Scenario.m0 = Some (P, Scenario.m0) /\
    PackedTensorAccessorBase.copy 2 7%nat 8%nat (place 7%nat P Scenario.m0)
    = Some (tt, m1) /\
    forall m2 : mem Z, packed m2 !! 8%nat = packed m1 !! 8%nat ->
      pdata_ <$> packed_at 2 m2 8%nat = Some Scenario.data /\
      (forall i,
         fst <$> PackedTensorAccessorBase.size 2 8%nat i m2
         = fst <$> PackedTensorAccessorBase.size 2 7%nat i (place 7%nat P Scenario.m0) /\
         fst <$> PackedTensorAccessorBase.stride 2 8%nat i m2
         = fst <$> PackedTensorAccessorBase.stride 2 7%nat i (place 7%nat P Scenario.m0)) /\
      (forall k, 0 <= k < Z.of_nat 2 ->
         exists x y,
           read_int64 Scenario.m0 (Scenario.sizes +i k) = Some x /\
           read_int64 Scenario.m0 (Scenario.strides +i k) = Some y /\
           PackedTensorAccessorBase.size 2 8%nat k m2 = Some (x, m2) /\
           PackedTensorAccessorBase.stride 2 8%nat k m2 = Some (y, m2)).
Proof.
  apply (PackedTensorAccessor_copy_self_contained 2 Scenario.data Scenario.sizes
           Scenario.strides Scenario.m0 [# 2; 3] [# 3; 1] 7%nat 8%nat); reflexivity.
Defined.

Lemma accessor_operations_do_not_mutate_witness :
  TensorAccessor.subscript Scenario.A 1 Scenario.m0
  = Some (Scenario.row1, Scenario.m0) /\
  PackedTensorAccessor.subscript1 8%nat 2 Scenario.mp
  = Some (pdata_ Scenario.P1 +e 1 * 2, Scenario.mp) /\
  Scenario.m0 = Scenario.m0 /\
  (Scenario.mp = Scenario.mp /\
   packed Scenario.mp !! 8%nat = packed Scenario.mp !! 8%nat).
Proof.
  destruct (accessor_operations_do_not_mutate Z) as (H1 & _ & _ & H4 & _).
  assert (E1 : TensorAccessor.subscript Scenario.A 1 Scenario.m0
               = Some (Scenario.row1, Scenario.m0)) by reflexivity.
  assert (E4 : PackedTensorAccessor.subscript1 8%nat 2 Scenario.mp
               = Some (pdata_ Scenario.P1 +e 1 * 2, Scenario.mp)) by reflexivity.
  split; [exact E1|]. split; [exact E4|]. split.
  - exact (H1 0%nat Scenario.A 1 Scenario.m0 Scenario.row1 Scenario.m0 E1).
  - exact (H4 8%nat 2 Scenario.mp (pdata_ Scenario.P1 +e 1 * 2) Scenario.mp E4).
Defined.

Lemma chained_subscript_address_witness :
  accessor_element 1 Scenario.A [1; 2] Scenario.m0
  = Some (data_ Scenario.A +e dot [3; 1] [1; 2], Scenario.m0) /\
  packed_element 1 7%nat [1; 2] Scenario.mp
  = Some (pdata_ Scenario.P2 +e dot [3; 1] [1; 2], Scenario.mp).
Proof.
  destruct (chained_subscript_address Z) as (H1 & H2). split.
  - apply (H1 1%nat Scenario.A [1; 2] Scenario.m0 [# 3; 1]); reflexivity.
  - apply (H2 1%nat 7%nat Scenario.P2 [1; 2] Scenario.mp); reflexivity.
Defined.

Lemma sizes_do_not_influence_addressing_witness :
  fst <$> accessor_element 1 Scenario.A [1; 2] Scenario.m0
  = fst <$> accessor_element 1 Scenario.B [1; 2] Scenario.m0' /\
  fst <$> packed_element 1 7%nat [1; 2] Scenario.mp
  = fst <$> packed_element 1 4%nat [1; 2] Scenario.mp' /\
  (fun r => data_ (fst r)) <$> TensorAccessor.subscript Scenario.A 1 Scenario.m0
  = (fun r => data_ (fst r)) <$> TensorAccessor.subscript Scenario.B 1 Scenario.m0'.
Proof.
  destruct (sizes_do_not_influence_addressing Z) as (H1 & H2 & H3).
  split; [|split].
  - apply (H1 1%nat Scenario.A Scenario.B [1; 2] Scenario.m0 Scenario.m0');
      [reflexivity|].
    intros k Hk. assert (k = 0 \/ k = 1) as [-> | ->] by lia; reflexivity.
  - apply (H2 1%nat 7%nat 4%nat Scenario.P2 Scenario.Q2 [1; 2]
             Scenario.mp Scenario.mp'); reflexivity.
  - apply (H3 0%nat Scenario.A Scenario.B 1 Scenario.m0 Scenario.m0'); reflexivity.
Defined.

(** * Further properties of the accessors *)

(** ** Arithmetic of shapes *)

Lemma in_int64_spec z : in_int64 z = true <-> INT64_MIN <= z <= INT64_MAX.
Proof.
  unfold in_int64. rewrite andb_true_iff, Z.leb_le, Z.leb_le. reflexivity.
Qed.

Lemma indices_in_range_length sz : forall idx,
  indices_in_range sz idx = true -> length idx = length sz.
Proof.
  induction sz as [|n ns IH]; intros [|i idx] H; try discriminate; [reflexivity|].
  simpl in H. apply andb_prop in H as [_ H]. simpl. f_equal. by apply IH.
Qed.

Lemma dot_bounds sz : forall st idx,
  strides_nonneg st = true ->
  indices_in_range sz idx = true ->
  length st = length sz ->
  0 <= dot st idx <= max_offset sz st.
Proof.
  induction sz as [|n ns IH]; intros [|s ss] [|i idx] Hs Hi Hl;
    try discriminate; simpl; try lia.
  simpl in Hs, Hi, Hl.
  apply andb_prop in Hs as [Hs0%Z.leb_le Hs].
  apply andb_prop in Hi as [[Hi0%Z.leb_le Hi1%Z.ltb_lt]%andb_prop Hi].
  specialize (IH ss idx Hs Hi ltac:(lia)). nia.
Qed.

Lemma products_bounded sz : forall st idx,
  strides_nonneg st = true ->
  indices_in_range sz idx = true ->
  length st = length sz ->
  max_offset sz st <= INT64_MAX ->
  products_in_int64 st idx = true.
Proof.
  induction sz as [|n ns IH]; intros [|s ss] [|i idx] Hs Hi Hl Hmax;
    try discriminate; try reflexivity.
  simpl in Hs, Hi, Hl, Hmax.
  apply andb_prop in Hs as [Hs0%Z.leb_le Hs].
  apply andb_prop in Hi as [[Hi0%Z.leb_le Hi1%Z.ltb_lt]%andb_prop Hi].
  pose proof (dot_bounds ns ss idx Hs Hi ltac:(lia)) as Hd.
  simpl. apply andb_true_intro. split.
  - apply in_int64_spec. unfold INT64_MIN, INT64_MAX in *. nia.
  - apply (IH ss idx Hs Hi); [lia|nia].
Qed.




(** ** Construction of packed accessors: what is read, and when it is defined *)
Section Construction.
Context {T : Type}.
Implicit Types (m : mem T) (i k : Z) (idx : list Z).

Lemma read_array_ext N : forall (p q : int64_ptr) m1 m2,
  (forall j : nat, (j < N)%nat ->
     read_int64 m1 (p +i Z.of_nat j) = read_int64 m2 (q +i Z.of_nat j)) ->
  read_array N p m1 = read_array N q m2.
Proof.
  induction N as [|n IH]; intros p q m1 m2 H; [reflexivity|].
  rewrite !read_array_S.
  pose proof (H 0%nat ltac:(lia)) as H0.
  change (Z.of_nat 0) with 0 in H0. rewrite !iptr_add_0 in H0. rewrite H0.
  rewrite (IH (p +i 1) (q +i 1) m1 m2); [reflexivity|].
  intros j Hj. rewrite !iptr_add_assoc.
  replace (1 + Z.of_nat j) with (Z.of_nat (S j)) by lia. apply H. lia.
Qed.

Lemma read_array_defined N : forall (p : int64_ptr) m,
  (forall j : nat, (j < N)%nat -> is_Some (read_int64 m (p +i Z.of_nat j))) ->
  is_Some (read_array N p m).
Proof.
  induction N as [|n IH]; intros p m H; [by eexists|].
  rewrite read_array_S.
  destruct (H 0%nat ltac:(lia)) as [x Hx].
  change (Z.of_nat 0) with 0 in Hx. rewrite iptr_add_0 in Hx. rewrite Hx.
  destruct (IH (p +i 1) m) as [xs Hxs].
  - intros j Hj. rewrite iptr_add_assoc.
    replace (1 + Z.of_nat j) with (Z.of_nat (S j)) by lia. apply H. lia.
  - rewrite Hxs. by eexists.
Qed.

Lemma read_array_defined_iff N (p : int64_ptr) m :
  is_Some (read_array N p m) <->
  forall k, 0 <= k < Z.of_nat N -> is_Some (read_int64 m (p +i k)).
Proof.
  split.
  - intros [v Hv] k Hk.
    destruct (read_array_at N p m v k Hv Hk) as (x & _ & Hx). by exists x.
  - intros H. apply read_array_defined. intros j Hj. apply H. lia.
Qed.

Lemma PackedTensorAccessor_ctor_inv N d sp stp m (P : PackedTensorAccessor.t N) m' :
  PackedTensorAccessor.ctor N d sp stp m = Some (P, m') <->
  read_array N sp m = Some (psizes_ P) /\
  read_array N stp m = Some (pstrides_ P) /\
  pdata_ P = d /\ m' = m.
Proof.
  unfold PackedTensorAccessor.ctor, PackedTensorAccessorBase.ctor, bind, std_copy, ret.
  destruct (read_array N sp m) as [sz|]; [|split; [discriminate|by intros [[=] _]]].
  destruct (read_array N stp m) as [st|]; [|split; [discriminate|by intros (_ & [=] & _)]].
  split.
  - by intros [= <- <-].
  - intros ([= ->] & [= ->] & <- & ->). by destruct P.
Qed.

(** X1.  The constructor of a packed accessor is defined exactly when the
    first [N] elements of the sizes array and of the strides array can be
    read; nothing else is required of the memory or of the data pointer. *)
Theorem PackedTensorAccessor_ctor_defined_iff N d sp stp m :
  is_Some (PackedTensorAccessor.ctor N d sp stp m) <->
  forall k, 0 <= k < Z.of_nat N ->
    is_Some (read_int64 m (sp +i k)) /\ is_Some (read_int64 m (stp +i k)).
Proof.
  split.
  - intros [[P m'] (Hsz & Hst & _)%PackedTensorAccessor_ctor_inv] k Hk. split.
    + apply (proj1 (read_array_defined_iff N sp m)); [by eexists|exact Hk].
    + apply (proj1 (read_array_defined_iff N stp m)); [by eexists|exact Hk].
  - intros H.
    destruct (proj2 (read_array_defined_iff N sp m)) as [sz Hsz];
      [intros k Hk; apply H, Hk|].
    destruct (proj2 (read_array_defined_iff N stp m)) as [st Hst];
      [intros k Hk; apply H, Hk|].
    exists (MkPackedTensorAccessor d sz st, m).
    by apply PackedTensorAccessor_ctor_defined.
Qed.

(** X2.  The constructed packed accessor depends only on the data pointer
    and on the first [N] elements of the two source arrays: two memories
    (and two pairs of source pointers) that agree on those elements give
    the same object, or are both undefined. *)
Theorem PackedTensorAccessor_ctor_reads_only_sources
    N d sp stp sp' stp' m1 m2 :
  (forall k, 0 <= k < Z.of_nat N ->
     read_int64 m1 (sp +i k) = read_int64 m2 (sp' +i k) /\
     read_int64 m1 (stp +i k) = read_int64 m2 (stp' +i k)) ->
  fst <$> PackedTensorAccessor.ctor N d sp stp m1
  = fst <$> PackedTensorAccessor.ctor N d sp' stp' m2.
Proof.
  intros H.
  unfold PackedTensorAccessor.ctor, PackedTensorAccessorBase.ctor, bind, std_copy, ret.
  rewrite (read_array_ext N sp sp' m1 m2) by (intros j Hj; apply H; lia).
  destruct (read_array N sp' m2); [|reflexivity].
  rewrite (read_array_ext N stp stp' m1 m2) by (intros j Hj; apply H; lia).
  by destruct (read_array N stp' m2).
Qed.

(** X3.  [size(k)] and [stride(k)] of a packed accessor are defined exactly
    for [0 <= k < N], the extent of the embedded arrays. *)
Theorem PackedTensorAccessorBase_size_stride_defined_iff
    N this (P : PackedTensorAccessor.t N) m k :
  packed_at N m this = Some P ->
  (is_Some (PackedTensorAccessorBase.size N this k m) <-> 0 <= k < Z.of_nat N) /\
  (is_Some (PackedTensorAccessorBase.stride N this k m) <-> 0 <= k < Z.of_nat N).
Proof.
  intros HP.
  assert (Hn : forall v : vec Z N,
            is_Some (nthZ (vec_to_list v) k) <-> 0 <= k < Z.of_nat N).
  { intros v. split.
    - intros [x [H0 Hx%lookup_lt_Some]%nthZ_Some].
      rewrite length_vec_to_list in Hx. lia.
    - intros Hk.
      destruct (lookup_lt_is_Some_2 (vec_to_list v) (Z.to_nat k)) as [x Hx].
      { rewrite length_vec_to_list. lia. }
      exists x. apply nthZ_Some. split; [lia|exact Hx]. }
  rewrite (PackedTensorAccessorBase_size_run N this P m k HP),
    (PackedTensorAccessorBase_stride_run N this P m k HP).
  split.
  - rewrite <- (Hn (psizes_ P)).
    destruct (nthZ (vec_to_list (psizes_ P)) k) as [x|]; split; intros [y Hy];
      [by exists x | by exists (x, m) | discriminate | discriminate].
  - rewrite <- (Hn (pstrides_ P)).
    destruct (nthZ (vec_to_list (pstrides_ P)) k) as [x|]; split; intros [y Hy];
      [by exists x | by exists (x, m) | discriminate | discriminate].
Qed.
End Construction.

(** ** Packed and reference accessors over the same metadata *)
Section Agreement.
Context {T : Type}.
Implicit Types (m : mem T) (i k : Z) (idx : list Z).


Lemma packed_element_as_reference N this (P : PackedTensorAccessor.t (S N))
    (A : TensorAccessor.t (S N)) idx m1 m2 :
  packed_at (S N) m1 this = Some P ->
  data_ A = pdata_ P ->
  (forall k, 0 <= k < Z.of_nat (S N) ->
     read_int64 m2 (strides_ A +i k) = nthZ (vec_to_list (pstrides_ P)) k) ->
  fst <$> packed_element N this idx m1 = fst <$> accessor_element N A idx m2.
Proof.
  intros HP Hd Hs. pose proof (Hs 0 ltac:(lia)) as H0. destruct N as [|n].
  - destruct idx as [|i [|? ?]]; try reflexivity. simpl.
    rewrite (PackedTensorAccessor_subscript1_run this P i m1 HP),
      TensorAccessor_subscript1_run, H0, Hd.
    destruct (nthZ (vec_to_list (pstrides_ P)) 0) as [s|]; [|reflexivity].
    by destruct (int64_mul s i).
  - destruct idx as [|i rest]; [reflexivity|]. simpl. unfold bind.
    rewrite (PackedTensorAccessor_subscript_run n this P i m1 HP),
      TensorAccessor_subscript_run, H0, Hd.
    destruct (nthZ (vec_to_list (pstrides_ P)) 0) as [s|]; [|reflexivity].
    destruct (int64_mul s i) as [k|]; [|reflexivity].
    apply accessor_element_strides_only; [reflexivity|].
    intros j Hj. cbn [strides_]. rewrite !iptr_add_assoc.
    rewrite (read_embedded_strides _ m1 this P _ HP). symmetry. apply Hs. lia.
Qed.

(** X4.  A packed accessor constructed from the data pointer, sizes and
    strides of a reference accessor, and stored at any address, resolves
    every chain of subscripts to the same element address as the reference
    accessor does (or both are undefined). *)
Theorem packed_accessor_agrees_with_reference
    N (A : TensorAccessor.t (S N)) (P : PackedTensorAccessor.t (S N)) this idx m m' :
  PackedTensorAccessor.ctor (S N) (data_ A) (sizes_ A) (strides_ A) m = Some (P, m') ->
  fst <$> packed_element N this idx (place this P m')
  = fst <$> accessor_element N A idx m.
Proof.
  intros (_ & Hst & Hd & ->)%PackedTensorAccessor_ctor_inv.
  apply (packed_element_as_reference N this P A);
    [apply packed_at_place_eq | by rewrite Hd |].
  intros k Hk.
  destruct (read_array_at _ _ _ _ k Hst Hk) as (x & Hx & ->).
  symmetry. apply nthZ_Some. split; [lia|exact Hx].
Qed.
End Agreement.

(** ** In-range indices *)
Section InRange.
Context {T : Type}.
Implicit Types (m : mem T) (i k : Z) (idx : list Z).

(** X5.  No bounds are checked, but they are kept: for an accessor with
    non-negative strides over a buffer that extends to the largest offset
    [sum strides[k] * (sizes[k] - 1)], every index tuple within the sizes
    resolves, without overflow, to an offset between 0 and that largest
    offset, and the element there can be read. *)
Theorem in_range_subscripts_stay_in_buffer
    N (A : TensorAccessor.t (S N)) idx m (sz st : vec Z (S N)) (buf : list T) :
  read_array (S N) (sizes_ A) m = Some sz ->
  read_array (S N) (strides_ A) m = Some st ->
  strides_nonneg (vec_to_list st) = true ->
  indices_in_range (vec_to_list sz) idx = true ->
  buffers m !! eblk (data_ A) = Some buf ->
  0 <= eofs (data_ A) ->
  eofs (data_ A) + max_offset (vec_to_list sz) (vec_to_list st) < Z.of_nat (length buf) ->
  max_offset (vec_to_list sz) (vec_to_list st) <= INT64_MAX ->
  exists v,
    accessor_element N A idx m
    = Some (data_ A +e dot (vec_to_list st) idx, m) /\
    0 <= dot (vec_to_list st) idx <= max_offset (vec_to_list sz) (vec_to_list st) /\
    load_elem (data_ A +e dot (vec_to_list st) idx) m = Some (v, m).
Proof.
  intros Hsz Hst Hnn Hin Hbuf Hofs Hlen Hmax.
  assert (Hl : length (vec_to_list st) = length (vec_to_list sz))
    by by rewrite !length_vec_to_list.
  pose proof (dot_bounds _ _ _ Hnn Hin Hl) as Hd.
  destruct (lookup_lt_is_Some_2 buf
              (Z.to_nat (eofs (data_ A) + dot (vec_to_list st) idx))) as [v Hv]; [lia|].
  exists v. split; [|split; [exact Hd|]].
  - apply accessor_element_formula; [exact Hst | |].
    + rewrite (indices_in_range_length _ _ Hin). apply length_vec_to_list.
    + by apply (products_bounded (vec_to_list sz)).
  - unfold load_elem, read_elem. cbn [eptr_add eblk eofs]. rewrite Hbuf.
    assert (nthZ buf (eofs (data_ A) + dot (vec_to_list st) idx) = Some v) as ->;
      [|reflexivity].
    apply nthZ_Some. split; [lia|exact Hv].
Qed.

End InRange.

(** ** Element writes and the accessors *)
Section Writes.
Context {T : Type}.
Implicit Types (m : mem T) (i k : Z) (idx : list Z).







End Writes.

(** ** Views, broadcast dimensions and borrowed metadata *)
Section Borrowing.
Context {T : Type}.
Implicit Types (m : mem T) (i k : Z) (idx : list Z).

(** X9.  [sizes()] and [strides()] of a sub-accessor [A[i]] are views of
    length [N - 1] whose elements are those of [A.sizes()] and
    [A.strides()] without the leading one. *)
Theorem subaccessor_views_drop_leading_dimension
    N (A : TensorAccessor.t (S (S N))) i m A' m' (sz st : vec Z (S (S N))) :
  read_array (S (S N)) (sizes_ A) m = Some sz ->
  read_array (S (S N)) (strides_ A) m = Some st ->
  TensorAccessor.subscript A i m = Some (A', m') ->
  exists ls lt,
    TensorAccessorBase.sizes A' m' = Some (ls, m') /\
    TensorAccessorBase.strides A' m' = Some (lt, m') /\
    il_length ls = S N /\ il_length lt = S N /\
    IntList_elements ls m' = Some (tail (vec_to_list sz)) /\
    IntList_elements lt m' = Some (tail (vec_to_list st)).
Proof.
  intros Hsz Hst (s & _ & _ & -> & ->)%TensorAccessor_subscript_inv.
  exists (MkIntList (sizes_ A +i 1) (S N)), (MkIntList (strides_ A +i 1) (S N)).
  repeat split; unfold IntList_elements; cbn [il_data il_length].
  - rewrite read_array_S in Hsz.
    destruct (read_int64 m (sizes_ A)); [|discriminate].
    destruct (read_array (S N) (sizes_ A +i 1) m) as [xs|]; [|discriminate].
    by injection Hsz as <-.
  - rewrite read_array_S in Hst.
    destruct (read_int64 m (strides_ A)); [|discriminate].
    destruct (read_array (S N) (strides_ A +i 1) m) as [xs|]; [|discriminate].
    by injection Hst as <-.
Qed.

(** X10.  A dimension of stride 0 is a broadcast dimension: when
    [stride(0)] is 0 the subscript does not depend on the index, for
    reference and packed accessors of every dimensionality. *)
Theorem zero_stride_ignores_index
    N (A : TensorAccessor.t (S N)) this (P : PackedTensorAccessor.t (S N)) i j m :
  (TensorAccessorBase.stride A 0 m = Some (0, m) ->
   accessor_subscript N A i m = accessor_subscript N A j m) /\
  (packed_at (S N) m this = Some P ->
   PackedTensorAccessorBase.stride (S N) this 0 m = Some (0, m) ->
   packed_subscript N this i m = packed_subscript N this j m).
Proof.
  split.
  - intros [Hs _]%load_int64_Some. destruct N as [|n]; simpl; unfold bind.
    + by rewrite !TensorAccessor_subscript1_run, Hs.
    + by rewrite !TensorAccessor_subscript_run, Hs.
  - intros HP Hs.
    rewrite (PackedTensorAccessorBase_stride_run _ this P m 0 HP) in Hs.
    destruct (nthZ (vec_to_list (pstrides_ P)) 0) as [s|] eqn:Hs0; [|discriminate].
    injection Hs as ->. destruct N as [|n]; simpl; unfold bind.
    + by rewrite !(PackedTensorAccessor_subscript1_run this P _ m HP), Hs0.
    + by rewrite !(PackedTensorAccessor_subscript_run n this P _ m HP), Hs0.
Qed.

(** X11.  The sub-accessor [P[i]] borrows from the object at [this], not
    from the values [P] had: once another packed accessor is stored at that
    address the sub-accessor reads the new object's sizes and strides, and
    once no packed accessor is there its [size] and [stride] are
    undefined. *)
Theorem packed_subaccessor_follows_object
    N this i m (A' : TensorAccessor.t (S N)) m' k :
  PackedTensorAccessor.subscript this i m = Some (A', m') ->
  (forall Q : PackedTensorAccessor.t (S (S N)),
     TensorAccessorBase.size A' k (place this Q m')
     = lift (nthZ (vec_to_list (psizes_ Q)) (k + 1)) (place this Q m') /\
     TensorAccessorBase.stride A' k (place this Q m')
     = lift (nthZ (vec_to_list (pstrides_ Q)) (k + 1)) (place this Q m')) /\
  (forall m2 : mem T, packed m2 !! this = None ->
     TensorAccessorBase.size A' k m2 = None /\
     TensorAccessorBase.stride A' k m2 = None).
Proof.
  intros (P & s & _ & _ & _ & -> & ->)%PackedTensorAccessor_subscript_inv.
  unfold TensorAccessorBase.size, TensorAccessorBase.stride, load_int64, lift.
  cbn [sizes_ strides_]. rewrite !iptr_add_assoc, (Z.add_comm 1 k). split.
  - intros Q.
    by rewrite (read_embedded_sizes _ _ this Q _ (packed_at_place_eq _ this Q m)),
      (read_embedded_strides _ _ this Q _ (packed_at_place_eq _ this Q m)).
  - intros m2 H2. unfold read_int64, int64_array_at.
    cbn [iptr_add iarr iofs PackedTensorAccessorBase.sizes_ptr
         PackedTensorAccessorBase.strides_ptr].
    by rewrite H2.
Qed.
End Borrowing.

(** ** Passing a packed accessor by value *)
Section PassByValue.
Context {T : Type}.
Implicit Types (m : mem T) (i k : Z) (idx : list Z).

(** X12.  A copy of a packed accessor indexes like the original: in every
    memory that holds the copy, each chain of subscripts on the copy
    resolves to the element address the same chain resolved to on the
    original when the copy was made (or both are undefined). *)
Theorem packed_copy_preserves_indexing
    N src dst (P : PackedTensorAccessor.t (S N)) idx m m1 m2 :
  packed_at (S N) m src = Some P ->
  PackedTensorAccessorBase.copy (S N) src dst m = Some (tt, m1) ->
  packed m2 !! dst = packed m1 !! dst ->
  fst <$> packed_element N dst idx m2 = fst <$> packed_element N src idx m.
Proof.
  intros HP Hc H2.
  unfold PackedTensorAccessorBase.copy, bind, load_this, store_this in Hc.
  rewrite HP in Hc. injection Hc as <-.
  apply (packed_element_strides_only N dst src P P); try done.
  apply packed_at_Some. rewrite H2. apply packed_at_Some.
  replace (MkPackedTensorAccessor (pdata_ P) (psizes_ P) (pstrides_ P)) with P
    by by destruct P.
  apply packed_at_place_eq.
Qed.
End PassByValue.

(** ** The further properties at work on the scenario *)

Lemma PackedTensorAccessor_ctor_reads_only_sources_witness :
  fst <$> PackedTensorAccessor.ctor 2 Scenario.data Scenario.strides
            Scenario.strides Scenario.m0
  = fst <$> PackedTensorAccessor.ctor 2 Scenario.data Scenario.strides
              Scenario.strides Scenario.m0'.
Proof.
  apply (PackedTensorAccessor_ctor_reads_only_sources 2 Scenario.data
           Scenario.strides Scenario.strides Scenario.strides Scenario.strides
           Scenario.m0 Scenario.m0').
  intros k Hk. assert (k = 0 \/ k = 1) as [-> | ->] by lia; split; reflexivity.
Defined.

Lemma PackedTensorAccessorBase_size_stride_defined_iff_witness :
  (is_Some (PackedTensorAccessorBase.size 2 7%nat 1 Scenario.mp)
   <-> 0 <= 1 < Z.of_nat 2) /\
  (is_Some (PackedTensorAccessorBase.stride 2 7%nat 1 Scenario.mp)
   <-> 0 <= 1 < Z.of_nat 2).
Proof.
  apply (PackedTensorAccessorBase_size_stride_defined_iff 2 7%nat Scenario.P2
           Scenario.mp 1). reflexivity.
Defined.

Lemma packed_accessor_agrees_with_reference_witness :
  fst <$> packed_element 1 7%nat [1; 2] (place 7%nat Scenario.P2 Scenario.m0)
  = fst <$> accessor_element 1 Scenario.A [1; 2] Scenario.m0.
Proof.
  apply (packed_accessor_agrees_with_reference 1 Scenario.A Scenario.P2 7%nat
           [1; 2] Scenario.m0 Scenario.m0). reflexivity.
Defined.

Lemma in_range_subscripts_stay_in_buffer_witness :
  exists v,
    accessor_element 1 Scenario.A [1; 2] Scenario.m0
    = Some (data_ Scenario.A +e dot [3; 1] [1; 2], Scenario.m0) /\
    0 <= dot [3; 1] [1; 2] <= max_offset [2; 3] [3; 1] /\
    load_elem (data_ Scenario.A +e dot [3; 1] [1; 2]) Scenario.m0
    = Some (v, Scenario.m0).
Proof.
  apply (in_range_subscripts_stay_in_buffer 1 Scenario.A [1; 2] Scenario.m0
           [# 2; 3] [# 3; 1] [10; 11; 12; 13; 14; 15]);
    try reflexivity; unfold INT64_MAX; simpl; lia.
Defined.




Lemma subaccessor_views_drop_leading_dimension_witness :
  exists ls lt,
    TensorAccessorBase.sizes Scenario.row1 Scenario.m0 = Some (ls, Scenario.m0) /\
    TensorAccessorBase.strides Scenario.row1 Scenario.m0 = Some (lt, Scenario.m0) /\
    il_length ls = 1%nat /\ il_length lt = 1%nat /\
    IntList_elements ls Scenario.m0 = Some (tail [2; 3]) /\
    IntList_elements lt Scenario.m0 = Some (tail [3; 1]).
Proof.
  apply (subaccessor_views_drop_leading_dimension 0 Scenario.A 1 Scenario.m0
           Scenario.row1 Scenario.m0 [# 2; 3] [# 3; 1]); reflexivity.
Defined.

Lemma zero_stride_ignores_index_witness :
  accessor_subscript 1 Scenario.Bc 0 Scenario.mb
  = accessor_subscript 1 Scenario.Bc 1 Scenario.mb /\
  packed_subscript 1 9%nat 0 Scenario.mb = packed_subscript 1 9%nat 1 Scenario.mb.
Proof.
  destruct (zero_stride_ignores_index 1 Scenario.Bc 9%nat Scenario.Pb 0 1
              Scenario.mb) as [H1 H2].
  split; [apply H1 | apply H2]; reflexivity.
Defined.

Lemma packed_subaccessor_follows_object_witness :
  (forall Q : PackedTensorAccessor.t 2,
     TensorAccessorBase.size
       (MkTensorAccessor (N:=1) (Scenario.data +e 3) (IPtr (EmbeddedSizes 7) 1)
          (IPtr (EmbeddedStrides 7) 1)) 0 (place 7%nat Q Scenario.mp)
     = lift (nthZ (vec_to_list (psizes_ Q)) (0 + 1)) (place 7%nat Q Scenario.mp) /\
     TensorAccessorBase.stride
       (MkTensorAccessor (N:=1) (Scenario.data +e 3) (IPtr (EmbeddedSizes 7) 1)
          (IPtr (EmbeddedStrides 7) 1)) 0 (place 7%nat Q Scenario.mp)
     = lift (nthZ (vec_to_list (pstrides_ Q)) (0 + 1)) (place 7%nat Q Scenario.mp)) /\
  (forall m2 : mem Z, packed m2 !! 7%nat = None ->
     TensorAccessorBase.size
       (MkTensorAccessor (N:=1) (Scenario.data +e 3) (IPtr (EmbeddedSizes 7) 1)
          (IPtr (EmbeddedStrides 7) 1)) 0 m2 = None /\
     TensorAccessorBase.stride
       (MkTensorAccessor (N:=1) (Scenario.data +e 3) (IPtr (EmbeddedSizes 7) 1)
          (IPtr (EmbeddedStrides 7) 1)) 0 m2 = None).
Proof.
  apply (packed_subaccessor_follows_object 0 7%nat 1 Scenario.mp
           (MkTensorAccessor (Scenario.data +e 3) (IPtr (EmbeddedSizes 7) 1)
              (IPtr (EmbeddedStrides 7) 1)) Scenario.mp 0).
  reflexivity.
Defined.

Lemma packed_copy_preserves_indexing_witness :
  fst <$> packed_element 1 8%nat [1; 2] (place 8%nat Scenario.P2 Scenario.mp)
  = fst <$> packed_element 1 7%nat [1; 2] Scenario.mp.
Proof.
  apply (packed_copy_preserves_indexing 1 7%nat 8%nat Scenario.P2 [1; 2]
           Scenario.mp (place 8%nat Scenario.P2 Scenario.mp)
           (place 8%nat Scenario.P2 Scenario.mp)); reflexivity.
Defined.
